(** * uiprogress: the progress container and its repaint loop

    A shallow embedding of [progress.go] (package [uiprogress]) and the
    properties of its render pass, of its configuration setters and of the
    [Listen]/[Stop] handshake.

    Conventions of the model.
    - Go's [int] is a 64-bit two's-complement integer: a [Z] with the
      wrap-around written out ([GoInt.add], [GoInt.sub]).
    - A [*Bar] is a location in a store of bars; [Progress.Bars] is a list
      of locations, so that two occurrences of one pointer alias.
    - A Go string is a sequence of bytes and [len] counts them.
    - The collaborators [uilive.Writer] and [term.GetSize] belong to other
      packages; the first is represented by the sequence of calls made on
      it, the second by the answer it gives at a tick. *)

From Stdlib Require Import ZArith Lia String List.
From stdpp Require Import base option list.
Import ListNotations.

Local Open Scope Z_scope.

(** ** Machine integers *)

Module GoInt.

Definition bits : Z := 64.
Definition modulus : Z := 2 ^ bits.
Definition min_int : Z := - 2 ^ (bits - 1).
Definition max_int : Z := 2 ^ (bits - 1) - 1.

(** The value an [int] holds after an arithmetic result [z]. *)
Definition wrap (z : Z) : Z := (z - min_int) mod modulus + min_int.

Definition add (a b : Z) : Z := wrap (a + b).
Definition sub (a b : Z) : Z := wrap (a - b).

Definition in_range (z : Z) : Prop := min_int <= z <= max_int.

End GoInt.

(** [len(s)] of a Go string. *)
Definition len (s : string) : Z := Z.of_nat (String.length s).

(** ** Package-level variables

    [Out] and [RefreshInterval] are declared in [progress.go]; [Width] is
    the package's default bar width, declared next to [Bar].  All three are
    variables, so they are part of the state a function runs in. *)

Definition io_Writer : Type := nat.

Record Package : Type := mkPackage {
  pkg_Out : io_Writer;
  pkg_RefreshInterval : Z;
  pkg_Width : Z
}.

(** ** Bars and decorators

    [DecoratorFunc] is [func(b *Bar) string].  A decorator reads the bar it
    is given; the model hands it the numeric fields of that bar. *)

Record BarView : Type := mkBarView {
  bar_Total : Z;
  bar_current : Z;
  bar_Width : Z
}.

Definition DecoratorFunc : Type := BarView -> string.

Record Bar : Type := mkBar {
  view : BarView;
  prependFuncs : list DecoratorFunc;
  appendFuncs : list DecoratorFunc
}.

Definition set_Width (b : Bar) (w : Z) : Bar :=
  {| view := {| bar_Total := bar_Total (view b);
                bar_current := bar_current (view b);
                bar_Width := w |};
     prependFuncs := prependFuncs b;
     appendFuncs := appendFuncs b |}.

Abbreviation loc := nat (only parsing).
Abbreviation Heap := (list Bar) (only parsing).

(** ** Decorator calls

    Every call of a decorator is recorded with the slot the decorator was
    registered in and the string it returned, so that the number of
    evaluations during a render pass can be counted. *)

Inductive Slot : Type :=
| Prepend (i : nat)
| Append (i : nat).

Record Call : Type := mkCall {
  call_slot : Slot;
  call_result : string
}.

Global Instance Slot_eq_dec : EqDecision Slot.
Proof. solve_decision. Defined.

Definition Eval (A : Type) : Type := (A * list Call)%type.

Definition ret {A} (a : A) : Eval A := (a, []).

Definition bind {A B} (m : Eval A) (k : A -> Eval B) : Eval B :=
  let '(a, l1) := m in
  let '(b, l2) := k a in
  (b, l1 ++ l2).

Declare Scope eval_scope.
Delimit Scope eval_scope with eval.
Notation "'run' x <~ m ;; k" := (bind m (fun x => k))
  (at level 10, x name, m at level 99, k at level 200) : eval_scope.

Definition call (s : Slot) (f : DecoratorFunc) (b : BarView) : Eval string :=
  (f b, [ {| call_slot := s; call_result := f b |} ]).

(** ** Terminal size

    The answer of [term.GetSize(int(Out.Fd()))]: width, height and error. *)

Record SizeResult : Type := mkSize {
  size_width : Z;
  size_height : Z;
  size_err : option string
}.

Definition TermQuery : Type := io_Writer -> SizeResult.

(** [getTerminalWidth], lines 25-30. *)
Definition getTerminalWidth (g : Package) (q : TermQuery) : Z :=
  let r := q (pkg_Out g) in
  match size_err r with
  | None => if 0 <? size_width r then size_width r else pkg_Width g
  | Some _ => pkg_Width g
  end.

(** ** The live writer

    [uilive.Writer] is represented by its output and by the calls made on
    it, oldest first: [fmt.Fprintln(p.lw, s)] and [p.lw.Flush()]. *)

Inductive WriterCall : Type :=
| Fprintln (line : string)
| Flush.

Record Writer : Type := mkWriter {
  lw_Out : io_Writer;
  lw_calls : list WriterCall
}.

(** [uilive.New()]: a writer to the standard output (descriptor 1), on
    which nothing has been called yet. *)
Definition uilive_New : Writer := {| lw_Out := 1%nat; lw_calls := [] |}.

Definition writer_call (w : Writer) (c : WriterCall) : Writer :=
  {| lw_Out := lw_Out w; lw_calls := lw_calls w ++ [c] |}.

(** ** The container

    The exported fields of [Progress] and its live writer [lw].  Of the
    other unexported fields, [ticker] is never used, [tdone] is part of the
    state of the loop below, and [mtx] is what makes each method body one
    step of that loop's system. *)

Record Progress : Type := mkProgress {
  Out : io_Writer;
  Width : Z;
  Bars : list loc;
  RefreshInterval : Z;
  lw : Writer
}.

(** [New], lines 53-67. *)
Definition New (g : Package) : Progress :=
  let lw0 := {| lw_Out := pkg_Out g; lw_calls := lw_calls uilive_New |} in
  {| Out := pkg_Out g;
     Width := pkg_Width g;
     Bars := [];
     RefreshInterval := pkg_RefreshInterval g;
     lw := lw0 |}.

(** [SetOut], lines 89-95. *)
Definition SetOut (o : io_Writer) (p : Progress) : Progress :=
  {| Out := o;
     Width := Width p;
     Bars := Bars p;
     RefreshInterval := RefreshInterval p;
     lw := {| lw_Out := o; lw_calls := lw_calls (lw p) |} |}.

(** [SetRefreshInterval], lines 97-101. *)
Definition SetRefreshInterval (interval : Z) (p : Progress) : Progress :=
  {| Out := Out p;
     Width := Width p;
     Bars := Bars p;
     RefreshInterval := interval;
     lw := lw p |}.

(** Modelled from the spec: [NewBar] is declared in [bar.go], outside
    [progress.go].  The spec has a bar constructed from its [total], with
    no progress made and no decorator registered; its width is the package
    default until the container overwrites it. *)
Definition NewBar (g : Package) (total : Z) : Bar :=
  {| view := {| bar_Total := total; bar_current := 0; bar_Width := pkg_Width g |};
     prependFuncs := [];
     appendFuncs := [] |}.

(** [AddBar], lines 104-112.  The new bar is allocated at the end of the
    store and its pointer is both appended to [Bars] and returned. *)
Definition AddBar (g : Package) (total : Z) (p : Progress) (h : Heap)
  : loc * Progress * Heap :=
  let bar := NewBar g total in
  let bar := set_Width bar (Width p) in
  let a := length h in
  (a,
   {| Out := Out p;
      Width := Width p;
      Bars := Bars p ++ [a];
      RefreshInterval := RefreshInterval p;
      lw := lw p |},
   h ++ [bar]).

(** ** The render pass *)

Local Open Scope eval_scope.

(** The two loops of lines 153-160: each decorator of the snapshot is
    called on the bar and [len(f(bar)) + 1] is added to the running
    [decoratorsWidth]. *)
Fixpoint addWidths (mk : nat -> Slot) (i : nat) (fs : list DecoratorFunc)
    (b : BarView) (decoratorsWidth : Z) : Eval Z :=
  match fs with
  | [] => ret decoratorsWidth
  | f :: fs' =>
      run s <~ call (mk i) f b ;;
      addWidths mk (S i) fs' b (GoInt.add decoratorsWidth (GoInt.add (len s) 1))
  end.

(** Lines 164-167. *)
Definition barWidth (termWidth decoratorsWidth : Z) : Z :=
  let w := GoInt.sub termWidth decoratorsWidth in
  if w <? 10 then 10 else w.

Section Render.

(** [bar.String()], a method of [Bar]: it is given the bar and nothing
    else, and may call the bar's decorators. *)
Variable Bar_String : Bar -> Eval string.

(** The body of the loop over [p.Bars], lines 143-173, for one bar: the
    two lists of decorators are copied (lines 143-148), the widths of
    their strings summed, the width of the bar assigned and the bar
    rendered.  The result is the bar after the assignment and the line
    handed to the writer. *)
Definition print_bar (termWidth : Z) (bar : Bar) : Eval (Bar * string) :=
  let prepend := prependFuncs bar in
  let append := appendFuncs bar in
  run w1 <~ addWidths Prepend 0 prepend (view bar) 0 ;;
  run w2 <~ addWidths Append 0 append (view bar) w1 ;;
  let bar' := set_Width bar (barWidth termWidth w2) in
  run line <~ Bar_String bar' ;;
  ret (bar', line).

(** The loop of lines 140-174.  Dereferencing a pointer that is not in
    the store is a nil dereference: the pass panics ([None]). *)
Fixpoint print_loop (termWidth : Z) (bars : list loc) (h : Heap) (w : Writer)
  : option (Heap * Writer * list Call) :=
  match bars with
  | [] => Some (h, w, [])
  | a :: rest =>
      match h !! a with
      | None => None
      | Some bar =>
          let '(bar', line, cs) := print_bar termWidth bar in
          match print_loop termWidth rest (<[a := bar']> h)
                  (writer_call w (Fprintln line)) with
          | None => None
          | Some (h', w', cs') => Some (h', w', cs ++ cs')
          end
      end
  end.

(** [print], lines 133-176. *)
Definition print (g : Package) (q : TermQuery) (p : Progress) (h : Heap)
  : option (Progress * Heap * list Call) :=
  let termWidth := getTerminalWidth g q in
  match print_loop termWidth (Bars p) h (lw p) with
  | None => None
  | Some (h', w', cs) =>
      Some ({| Out := Out p;
               Width := Width p;
               Bars := Bars p;
               RefreshInterval := RefreshInterval p;
               lw := writer_call w' Flush |}, h', cs)
  end.

End Render.

(** ** Rendering of a bar *)

(** [x] brought into [[lo, hi]]. *)
Definition clamp (lo hi x : Z) : Z := Z.max lo (Z.min hi x).

(** The columns a list of decorator strings takes: the length of each and
    one more for the space that separates it from the bar. *)
Definition sumWidths (ss : list string) : Z :=
  fold_right (fun s acc => len s + 1 + acc) 0 ss.

(** Modelled from the spec: the string composition of a bar
    ([Bar.String]) is declared in [bar.go], outside [progress.go].  The
    spec has the width left to the glyphs be the bar's width minus one
    column more than each decorator string and minus a fixed overhead for
    the percentage text, and never less than 10. *)
Definition available_width (width : Z) (pre app : list string) (overhead : Z) : Z :=
  Z.max 10 (width - sumWidths pre - sumWidths app - overhead).

(** Modelled from the spec: the number of fill glyphs is
    [floor(available_width * current / total)], clamped to
    [[0, available_width]]; a bar whose total is not positive shows no
    progress. *)
Definition fill_length (available current total : Z) : Z :=
  if total <=? 0 then 0
  else clamp 0 available (available * current / total).

(** The strings of a list of decorators, each called once, in order. *)
Fixpoint evalAll (mk : nat -> Slot) (i : nat) (fs : list DecoratorFunc)
    (b : BarView) : Eval (list string) :=
  match fs with
  | [] => ret []
  | f :: fs' =>
      run s <~ call (mk i) f b ;;
      run ss <~ evalAll mk (S i) fs' b ;;
      ret (s :: ss)
  end.

(** The bar itself: fill glyphs, then empty ones. *)
Definition glyphs (fill empty : Z) : string :=
  (String.concat "" (repeat "=" (Z.to_nat fill))
   ++ String.concat "" (repeat "-" (Z.to_nat empty)))%string.

(** Modelled from the spec: [Bar.String] ([bar.go]) evaluates the prepend
    decorators, then the append decorators, in registration order, and
    composes the prepend strings, each followed by a space, the glyphs, and
    the append strings, each preceded by a space. *)
Definition Bar_String (overhead : Z) (bar : Bar) : Eval string :=
  run pre <~ evalAll Prepend 0 (prependFuncs bar) (view bar) ;;
  run app <~ evalAll Append 0 (appendFuncs bar) (view bar) ;;
  let available := available_width (bar_Width (view bar)) pre app overhead in
  let fill := fill_length available (bar_current (view bar)) (bar_Total (view bar)) in
  ret (String.concat "" (map (fun s => s ++ " ") pre)
       ++ glyphs fill (available - fill)
       ++ String.concat "" (map (fun s => " " ++ s) app))%string.

(** The number of times the decorator registered in slot [s] was called. *)
Definition evaluations (s : Slot) (cs : list Call) : nat :=
  count_occ Slot_eq_dec (map call_slot cs) s.

(** ** The repaint loop and its callers

    [Listen] (lines 115-131) runs in its own goroutine once [Start] (lines
    179-181) has launched it; [Stop] (lines 184-187) and the setters run in
    the goroutines of their callers.  The system is a transition relation
    over the control points of the loop and of the one call of [Stop], the
    channel [tdone] and the data of the container.  Every section of code
    that holds [p.mtx] is one transition. *)

Inductive LoopPc : Type :=
| LIdle                  (* [Start] has not been called *)
| LRead                  (* line 118, top of the [for] *)
| LSelect (interval : Z) (* line 122, waiting in the [select] *)
| LTick                  (* line 124, the timer case was taken *)
| LFinal                 (* line 126, the [tdone] case was taken *)
| LClose                 (* line 127 *)
| LDone.                 (* line 128, [Listen] has returned *)

Inductive StopPc : Type :=
| SIdle                  (* [Stop] has not been called *)
| SSend                  (* line 185, blocked in the send *)
| SRecv                  (* line 186, blocked in the receive *)
| SDone.                 (* [Stop] has returned *)

Inductive Event : Type :=
| EvStart
| EvRead (interval : Z)
| EvTick (interval : Z)
| EvSignal
| EvPrint
| EvClose
| EvStop
| EvStopped
| EvSetRefreshInterval (interval : Z)
| EvSetOut (o : io_Writer)
| EvAddBar (total : Z).

Global Instance Event_eq_dec : EqDecision Event.
Proof. solve_decision. Defined.

Record System : Type := mkSystem {
  sys_progress : Progress;
  sys_heap : Heap;
  sys_loop : LoopPc;
  sys_stop : StopPc;
  tdone_closed : bool
}.

Definition initial (p : Progress) (h : Heap) : System :=
  {| sys_progress := p; sys_heap := h;
     sys_loop := LIdle; sys_stop := SIdle; tdone_closed := false |}.

Section Listen.

Variable g : Package.
Variable Bar_String : Bar -> Eval string.

Inductive step : System -> Event -> System -> Prop :=
(* line 180: go p.Listen() *)
| step_Start p h st c :
    step (mkSystem p h LIdle st c) EvStart (mkSystem p h LRead st c)
(* lines 118-120 *)
| step_read p h st c :
    step (mkSystem p h LRead st c) (EvRead (RefreshInterval p))
         (mkSystem p h (LSelect (RefreshInterval p)) st c)
(* line 123: the timer of this iteration fires and its case is taken *)
| step_tick p h d st c :
    step (mkSystem p h (LSelect d) st c) (EvTick d) (mkSystem p h LTick st c)
(* lines 125 and 185: the send of [Stop] meets the receive of the loop *)
| step_signal p h d :
    step (mkSystem p h (LSelect d) SSend false) EvSignal
         (mkSystem p h LFinal SRecv false)
(* line 124 *)
| step_print_tick p h st c q p' h' cs :
    print Bar_String g q p h = Some (p', h', cs) ->
    step (mkSystem p h LTick st c) EvPrint (mkSystem p' h' LRead st c)
(* line 126 *)
| step_print_final p h st c q p' h' cs :
    print Bar_String g q p h = Some (p', h', cs) ->
    step (mkSystem p h LFinal st c) EvPrint (mkSystem p' h' LClose st c)
(* lines 127-128 *)
| step_close p h st :
    step (mkSystem p h LClose st false) EvClose (mkSystem p h LDone st true)
(* [Stop] is called: line 185 is reached *)
| step_Stop p h l c :
    step (mkSystem p h l SIdle c) EvStop (mkSystem p h l SSend c)
(* line 186: a receive on the closed channel completes *)
| step_Stopped p h l :
    step (mkSystem p h l SRecv true) EvStopped (mkSystem p h l SDone true)
| step_SetRefreshInterval p h l st c v :
    step (mkSystem p h l st c) (EvSetRefreshInterval v)
         (mkSystem (SetRefreshInterval v p) h l st c)
| step_SetOut p h l st c o :
    step (mkSystem p h l st c) (EvSetOut o) (mkSystem (SetOut o p) h l st c)
| step_AddBar p h l st c total :
    step (mkSystem p h l st c) (EvAddBar total)
         (mkSystem (AddBar g total p h).1.2 (AddBar g total p h).2 l st c).

(** Runs, with the history of events newest first. *)
Inductive reach (s0 : System) : list Event -> System -> Prop :=
| reach_nil : reach s0 [] s0
| reach_cons hist s e s' :
    reach s0 hist s -> step s e s' -> reach s0 (e :: hist) s'.

End Listen.

(** A stretch of history in which nothing was painted. *)
Definition quiet (l : list Event) : Prop := ~ In EvPrint l.

(** The events of the loop itself, as opposed to those of its callers. *)
Definition loop_event (e : Event) : bool :=
  match e with
  | EvStart | EvRead _ | EvTick _ | EvSignal | EvPrint | EvClose => true
  | _ => false
  end.

(** The interval the container holds after a history that began with
    [init] stored. *)
Fixpoint stored_interval (init : Z) (hist : list Event) : Z :=
  match hist with
  | [] => init
  | EvSetRefreshInterval v :: _ => v
  | _ :: rest => stored_interval init rest
  end.

(** ** The vocabulary of the properties *)

(** The strings the decorators of a bar produce, prepend decorators
    first. *)
Definition decoratorStrings (bar : Bar) : list string :=
  map (fun f => f (view bar)) (prependFuncs bar ++ appendFuncs bar).

(** The calls of one walk over a list of decorators on the bar [v], the
    first decorator being in slot [mk i]. *)
Fixpoint callsFrom (mk : nat -> Slot) (i : nat) (fs : list DecoratorFunc)
    (v : BarView) : list Call :=
  match fs with
  | [] => []
  | f :: fs' => {| call_slot := mk i; call_result := f v |} :: callsFrom mk (S i) fs' v
  end.

(** One walk over the prepend decorators, then one over the append
    decorators. *)
Definition decoratorCalls (bar : Bar) (v : BarView) : list Call :=
  callsFrom Prepend 0 (prependFuncs bar) v ++ callsFrom Append 0 (appendFuncs bar) v.

(** The slots in which the bar has a decorator. *)
Definition registered (bar : Bar) (s : Slot) : Prop :=
  match s with
  | Prepend i => (i < length (prependFuncs bar))%nat
  | Append i => (i < length (appendFuncs bar))%nat
  end.

(** The history since the signal of [Stop], stage by stage. *)
Definition after_signal (hist : list Event) : Prop :=
  exists mid0 pre, hist = mid0 ++ EvSignal :: pre /\ quiet mid0.

Definition after_print (hist : list Event) : Prop :=
  exists mid1 rest, hist = mid1 ++ EvPrint :: rest /\ quiet mid1 /\ after_signal rest.

Definition after_close (hist : list Event) : Prop :=
  exists mid2 rest, hist = mid2 ++ EvClose :: rest /\ quiet mid2 /\ after_print rest.

Definition after_stopped (hist : list Event) : Prop :=
  exists post rest, hist = post ++ EvStopped :: rest /\ quiet post /\ after_close rest.

(** What the control points of the loop and of [Stop] say about the
    history so far. *)
Definition handshake (s : System) (hist : list Event) : Prop :=
  match sys_stop s, sys_loop s with
  | (SIdle | SSend), (LIdle | LRead | LSelect _ | LTick) =>
      tdone_closed s = false /\ ~ In EvStopped hist /\ ~ In EvSignal hist
  | SRecv, LFinal =>
      tdone_closed s = false /\ ~ In EvStopped hist /\ after_signal hist
  | SRecv, LClose =>
      tdone_closed s = false /\ ~ In EvStopped hist /\ after_print hist
  | SRecv, LDone =>
      tdone_closed s = true /\ ~ In EvStopped hist /\ after_close hist
  | SDone, LDone =>
      tdone_closed s = true /\ after_stopped hist
  | _, _ => False
  end.

(** Events of the callers only. *)
Definition caller_events (l : list Event) : Prop :=
  Forall (fun e => loop_event e = false) l.

(** The loop read [d] and none of its own events followed. *)
Definition waiting (d : Z) (hist : list Event) : Prop :=
  exists env rest, hist = env ++ EvRead d :: rest /\ caller_events env.

(** Every read of the loop obtained the interval stored last. *)
Definition reads_ok (init : Z) (hist : list Event) : Prop :=
  forall after d before, hist = after ++ EvRead d :: before ->
    d = stored_interval init before.

(** Every sleep that elapsed lasted the interval read at the top of its
    own iteration. *)
Definition ticks_ok (hist : list Event) : Prop :=
  forall after d before, hist = after ++ EvTick d :: before -> waiting d before.

(** What the state of a run says about the interval: the container holds
    the interval stored last, and a loop waiting in its [select] waits for
    the interval it read at the top of the iteration. *)
Definition interval_inv (init : Z) (s : System) (hist : list Event) : Prop :=
  RefreshInterval (sys_progress s) = stored_interval init hist /\
  (forall d, sys_loop s = LSelect d -> waiting d hist) /\
  reads_ok init hist /\
  ticks_ok hist.

(** ** Sample containers and runs

    Concrete data on which the definitions are run. *)

(** The package with its defaults, and a container with one bar that
    carries a label before and a counter after. *)
Definition sample_pkg : Package :=
  {| pkg_Out := 1%nat; pkg_RefreshInterval := 10; pkg_Width := 70 |}.

Definition sample_bar : Bar :=
  {| view := {| bar_Total := 100; bar_current := 50; bar_Width := 70 |};
     prependFuncs := [fun _ => "ab"%string];
     appendFuncs := [fun _ => "cde"%string] |}.

Definition sample_progress : Progress :=
  {| Out := 1%nat; Width := 70; Bars := [0%nat]; RefreshInterval := 10;
     lw := {| lw_Out := 1%nat; lw_calls := [] |} |}.

Definition terminal (columns : Z) : TermQuery :=
  fun _ => {| size_width := columns; size_height := 24; size_err := None |}.

Definition no_terminal : TermQuery :=
  fun _ => {| size_width := 0; size_height := 0;
              size_err := Some "inappropriate ioctl for device"%string |}.

(** A container whose own [Width] was set to 100 while the package default
    is 70, and the bar [AddBar] gives it. *)
Definition wide_container : Progress :=
  {| Out := 1%nat; Width := 100; Bars := []; RefreshInterval := 10;
     lw := {| lw_Out := 1%nat; lw_calls := [] |} |}.

Definition wide_added : nat * Progress * list Bar :=
  AddBar sample_pkg 100 wide_container [].

(** A container with no bar, stopped right after it was started. *)
Definition empty_progress : Progress := New sample_pkg.

Definition stopped_history : list Event :=
  [EvStopped; EvClose; EvPrint; EvSignal; EvStop; EvRead 10; EvStart].

Definition stopped_state : System :=
  {| sys_progress := {| Out := 1%nat; Width := 70; Bars := [];
                        RefreshInterval := 10;
                        lw := {| lw_Out := 1%nat; lw_calls := [Flush] |} |};
     sys_heap := [];
     sys_loop := LDone; sys_stop := SDone; tdone_closed := true |}.

(** A run in which the interval is changed from 10 to 1000 while the loop
    sleeps. *)
Definition retimed_history : list Event :=
  [EvTick 1000; EvRead 1000; EvPrint; EvTick 10; EvSetRefreshInterval 1000;
   EvRead 10; EvStart].

Definition retimed_state : System :=
  {| sys_progress := {| Out := 1%nat; Width := 70; Bars := [];
                        RefreshInterval := 1000;
                        lw := {| lw_Out := 1%nat; lw_calls := [Flush] |} |};
     sys_heap := [];
     sys_loop := LTick; sys_stop := SIdle; tdone_closed := false |}.

(** A container that is started and then given a second bar. *)
Definition added_history : list Event := [EvAddBar 7; EvStart].

Definition added_state : System :=
  {| sys_progress := {| Out := 1%nat; Width := 70; Bars := [0%nat; 1%nat];
                        RefreshInterval := 10;
                        lw := {| lw_Out := 1%nat; lw_calls := [] |} |};
     sys_heap := [sample_bar;
                  {| view := {| bar_Total := 7; bar_current := 0; bar_Width := 70 |};
                     prependFuncs := []; appendFuncs := [] |}];
     sys_loop := LRead; sys_stop := SIdle; tdone_closed := false |}.

(** ** Further vocabulary: the store, runs and counts *)

(** The value of [decoratorsWidth] at line 164, for a bar. *)
Definition decoratorsWidth (bar : Bar) : Z :=
  (addWidths Append 0 (appendFuncs bar) (view bar)
     (addWidths Prepend 0 (prependFuncs bar) (view bar) 0).1).1.

(** A container all of whose pointers lead to bars of the store, no two of
    them to the same bar. *)
Definition well_formed (p : Progress) (h : Heap) : Prop :=
  Forall (fun a => (a < length h)%nat) (Bars p) /\ NoDup (Bars p).

(** A bar none of whose decorators looks at the width of the bar. *)
Definition width_blind (bar : Bar) : Prop :=
  forall f, In f (prependFuncs bar ++ appendFuncs bar) ->
    forall v w, f {| bar_Total := bar_Total v; bar_current := bar_current v;
                     bar_Width := w |} = f v.

(** The number of events of a kind in a history. *)
Fixpoint count_events (kind : Event -> bool) (hist : list Event) : nat :=
  match hist with
  | [] => 0%nat
  | e :: rest => ((if kind e then 1 else 0) + count_events kind rest)%nat
  end.

Definition is_print (e : Event) : bool :=
  match e with EvPrint => true | _ => false end.

Definition is_wake (e : Event) : bool :=
  match e with EvTick _ | EvSignal => true | _ => false end.

(** One when the loop has woken up and not painted yet, zero otherwise. *)
Definition pending (s : System) : nat :=
  match sys_loop s with
  | LTick | LFinal => 1%nat
  | _ => 0%nat
  end.

(** The number of calls of [Flush] among the calls on a writer. *)
Fixpoint flushes (cs : list WriterCall) : nat :=
  match cs with
  | [] => 0%nat
  | Flush :: rest => Datatypes.S (flushes rest)
  | Fprintln _ :: rest => flushes rest
  end.

(** A container whose own [Width] is 100, under the package default of
    70, with the decorated bar at the width [AddBar] gave it. *)
Definition wide_bar : Bar := set_Width sample_bar 100.

Definition wide_progress : Progress :=
  {| Out := 1%nat; Width := 100; Bars := [0%nat]; RefreshInterval := 10;
     lw := {| lw_Out := 1%nat; lw_calls := [] |} |}.

(** The run of [stopped_history] on the container with one bar, on a
    terminal of 30 columns: the state at the end, and the state when
    [Stop] is called while the loop is about to paint on its timer. *)
Definition painted_state : System :=
  Eval vm_compute in
    match print (Bar_String 0) sample_pkg (terminal 30) sample_progress
            [sample_bar] with
    | Some (p', h', _) => mkSystem p' h' LDone SDone true
    | None => initial sample_progress [sample_bar]
    end.

Definition ticking_history : list Event := [EvStop; EvTick 10; EvRead 10; EvStart].

Definition ticking_state : System :=
  {| sys_progress := sample_progress; sys_heap := [sample_bar];
     sys_loop := LTick; sys_stop := SSend; tdone_closed := false |}.

(** The decorator calls of one turn of the loop of [print] on a bar:
    those of its own walk over the decorators, on the bar as found, then
    those [bar.String()] makes on the bar after its width was assigned. *)
Definition turn_calls (render : Bar -> Eval string) (W : Z) (bar : Bar)
  : list Call :=
  decoratorCalls bar (view bar) ++ (render (print_bar render W bar).1.1).2.

(** A container in which the same bar was put twice. *)
Definition twice_progress : Progress :=
  {| Out := 1%nat; Width := 70; Bars := [0%nat; 0%nat]; RefreshInterval := 10;
     lw := {| lw_Out := 1%nat; lw_calls := [] |} |}.

(** A container that was redirected, retimed and given another [Width]
    after [sample_progress]. *)
Definition reconfigured_progress : Progress :=
  {| Out := 5%nat; Width := 33; Bars := [0%nat]; RefreshInterval := 99;
     lw := {| lw_Out := 5%nat; lw_calls := [] |} |}.

(** * Properties *)

Ltac range :=
  unfold GoInt.in_range, GoInt.max_int, GoInt.min_int, GoInt.bits;
  vm_compute; repeat split; discriminate.

(** ** Arithmetic of [int] *)

Lemma wrap_in_range (z : Z) : GoInt.in_range z -> GoInt.wrap z = z.
Proof.
  unfold GoInt.in_range, GoInt.wrap, GoInt.min_int, GoInt.max_int,
    GoInt.modulus, GoInt.bits.
  intros Hz. rewrite Z.mod_small; lia.
Qed.

Lemma len_nonneg (s : string) : 0 <= len s.
Proof. unfold len. lia. Qed.

Lemma sumWidths_nonneg (ss : list string) : 0 <= sumWidths ss.
Proof.
  induction ss as [|s ss IH]; simpl; [lia|].
  pose proof (len_nonneg s). lia.
Qed.

Lemma sumWidths_app (l1 l2 : list string) :
  sumWidths (l1 ++ l2) = sumWidths l1 + sumWidths l2.
Proof. induction l1 as [|s l1 IH]; simpl; lia. Qed.

(** As long as the total fits an [int], the running sum of the loop is the
    sum of the integers. *)
Lemma addWidths_value mk (fs : list DecoratorFunc) : forall i b acc,
  0 <= acc ->
  acc + sumWidths (map (fun f => f b) fs) <= GoInt.max_int ->
  (addWidths mk i fs b acc).1 = acc + sumWidths (map (fun f => f b) fs).
Proof.
  induction fs as [|f fs IH]; intros i b acc Hacc Hmax; simpl in *.
  - lia.
  - pose proof (len_nonneg (f b)) as Hl.
    pose proof (sumWidths_nonneg (map (fun f => f b) fs)) as Hs.
    assert (Hin : GoInt.add acc (GoInt.add (len (f b)) 1) = acc + (len (f b) + 1)).
    { unfold GoInt.add.
      rewrite (wrap_in_range (len (f b) + 1)).
      - apply wrap_in_range. unfold GoInt.in_range, GoInt.min_int, GoInt.bits in *.
        simpl. lia.
      - unfold GoInt.in_range, GoInt.min_int, GoInt.bits in *. simpl. lia. }
    unfold bind, call.
    destruct (addWidths mk (S i) fs b (GoInt.add acc (GoInt.add (len (f b)) 1)))
      as [v l] eqn:E.
    simpl. specialize (IH (S i) b (GoInt.add acc (GoInt.add (len (f b)) 1))).
    rewrite E in IH. simpl in IH. rewrite IH; rewrite Hin; lia.
Qed.

Lemma barWidth_max (W D : Z) :
  GoInt.in_range (W - D) -> barWidth W D = Z.max 10 (W - D).
Proof.
  intros H. unfold barWidth, GoInt.sub. rewrite (wrap_in_range _ H).
  destruct (Z.ltb_spec (W - D) 10); lia.
Qed.

(** The width the loop body computes for a bar. *)
Lemma print_bar_width render (W : Z) (bar : Bar) :
  let D := sumWidths (decoratorStrings bar) in
  D <= GoInt.max_int ->
  GoInt.in_range (W - D) ->
  (print_bar render W bar).1 =
    (set_Width bar (Z.max 10 (W - D)), (render (set_Width bar (Z.max 10 (W - D)))).1).
Proof.
  intros D HD HW. unfold print_bar, bind.
  pose proof (sumWidths_nonneg (map (fun f => f (view bar)) (prependFuncs bar))) as Hp.
  pose proof (sumWidths_nonneg (map (fun f => f (view bar)) (appendFuncs bar))) as Ha.
  assert (HDsplit : D = sumWidths (map (fun f => f (view bar)) (prependFuncs bar))
                      + sumWidths (map (fun f => f (view bar)) (appendFuncs bar))).
  { unfold D, decoratorStrings. rewrite map_app. apply sumWidths_app. }
  pose proof (addWidths_value Prepend (prependFuncs bar) 0%nat (view bar) 0) as H1.
  destruct (addWidths Prepend 0 (prependFuncs bar) (view bar) 0) as [w1 l1] eqn:E1.
  simpl in H1. rewrite Z.add_0_l in H1. rewrite H1 by lia.
  pose proof (addWidths_value Append (appendFuncs bar) 0%nat (view bar)
                (sumWidths (map (fun f => f (view bar)) (prependFuncs bar)))) as H2.
  destruct (addWidths Append 0 (appendFuncs bar) (view bar)
              (sumWidths (map (fun f => f (view bar)) (prependFuncs bar))))
    as [w2 l2] eqn:E2.
  simpl in H2. rewrite H2 by lia.
  rewrite <- HDsplit. rewrite (barWidth_max W D HW).
  destruct (render (set_Width bar (Z.max 10 (W - D)))) as [line l3].
  reflexivity.
Qed.

(** ** The loop over the bars *)

Section PrintLoop.

Variable render : Bar -> Eval string.
Variable W : Z.

Lemma print_loop_app (l1 l2 : list loc) : forall h w,
  print_loop render W (l1 ++ l2) h w =
  match print_loop render W l1 h w with
  | None => None
  | Some (h1, w1, cs1) =>
      match print_loop render W l2 h1 w1 with
      | None => None
      | Some (h2, w2, cs2) => Some (h2, w2, cs1 ++ cs2)
      end
  end.
Proof.
  induction l1 as [|a l1 IH]; intros h w; simpl.
  - destruct (print_loop render W l2 h w) as [[[h2 w2] cs2]|]; reflexivity.
  - destruct (h !! a) as [bar|]; [|reflexivity].
    destruct (print_bar render W bar) as [[bar' line] cs].
    rewrite IH.
    destruct (print_loop render W l1 (<[a:=bar']> h) (writer_call w (Fprintln line)))
      as [[[h1 w1] cs1]|]; [|reflexivity].
    destruct (print_loop render W l2 h1 w1) as [[[h2 w2] cs2]|]; [|reflexivity].
    rewrite app_assoc. reflexivity.
Qed.

(** One more turn of the loop, on the bar the pointer [a] leads to. *)
Lemma print_loop_snoc (l : list loc) (a : loc) h w h1 w1 cs1 bar :
  print_loop render W l h w = Some (h1, w1, cs1) ->
  h1 !! a = Some bar ->
  print_loop render W (l ++ [a]) h w =
  Some (<[a := (print_bar render W bar).1.1]> h1,
        writer_call w1 (Fprintln (print_bar render W bar).1.2),
        cs1 ++ (print_bar render W bar).2).
Proof.
  intros Hl Ha. rewrite print_loop_app, Hl. simpl. rewrite Ha.
  destruct (print_bar render W bar) as [[bar' line] cs]. simpl.
  rewrite app_nil_r. reflexivity.
Qed.

Lemma print_loop_length (l : list loc) : forall h w h' w' cs,
  print_loop render W l h w = Some (h', w', cs) -> length h' = length h.
Proof.
  induction l as [|a l IH]; intros h w h' w' cs H; simpl in H.
  - congruence.
  - destruct (h !! a) as [bar|]; [|discriminate].
    destruct (print_bar render W bar) as [[bar' line] cs0].
    destruct (print_loop render W l (<[a:=bar']> h) (writer_call w (Fprintln line)))
      as [[[h1 w1] cs1]|] eqn:E; [|discriminate].
    inversion H; subst. apply IH in E. rewrite E. apply length_insert.
Qed.

(** The pass goes through when every pointer leads to a bar. *)
Lemma print_loop_total (l : list loc) : forall (h : Heap) w,
  Forall (fun a => is_Some (h !! a)) l ->
  is_Some (print_loop render W l h w).
Proof.
  induction l as [|a l IH]; intros h w Hall; simpl.
  - eexists; reflexivity.
  - inversion Hall as [|? ? [bar Ha] Hrest]; subst. rewrite Ha.
    destruct (print_bar render W bar) as [[bar' line] cs].
    destruct (IH (<[a:=bar']> h) (writer_call w (Fprintln line))) as [[[h1 w1] cs1] E].
    + eapply Forall_impl; [exact Hrest|]. intros b [x Hb]. simpl.
      apply lookup_lt_is_Some. rewrite length_insert.
      apply lookup_lt_is_Some. eauto.
    + rewrite E. eexists; reflexivity.
Qed.

(** What the pass hands to the writer: one line for each pointer, in
    order, each the rendering of the bar as the loop found and resized
    it. *)
Lemma print_loop_writes (l : list loc) : forall h w h' w' cs,
  print_loop render W l h w = Some (h', w', cs) ->
  exists lines : list string,
    lw_calls w' = lw_calls w ++ map Fprintln lines /\
    lw_Out w' = lw_Out w /\
    length lines = length l /\
    forall i a, l !! i = Some a ->
      exists h_i w_i cs_i bar,
        print_loop render W (take i l) h w = Some (h_i, w_i, cs_i) /\
        h_i !! a = Some bar /\
        lines !! i = Some (print_bar render W bar).1.2.
Proof.
  induction l as [|a l IH] using rev_ind; intros h w h' w' cs H.
  - simpl in H. inversion H; subst. exists []. simpl.
    rewrite app_nil_r. repeat split; try reflexivity.
    intros i a Hi. destruct i; discriminate.
  - rewrite print_loop_app in H.
    destruct (print_loop render W l h w) as [[[h1 w1] cs1]|] eqn:E1; [|discriminate].
    simpl in H. destruct (h1 !! a) as [bar|] eqn:Ha; [|discriminate].
    destruct (print_bar render W bar) as [[bar' line] cs0] eqn:Eb.
    inversion H; subst. clear H.
    destruct (IH _ _ _ _ _ E1) as (lines & Hc & Ho & Hlen & Hi).
    exists (lines ++ [line]). simpl.
    rewrite Hc, map_app, <- app_assoc. simpl.
    repeat split; [exact Ho | rewrite !length_app; simpl; lia |].
    intros i b Hb.
    destruct (decide (i < length l)%nat) as [Hlt|Hge].
    + rewrite lookup_app_l in Hb by exact Hlt.
      destruct (Hi i b Hb) as (h_i & w_i & cs_i & bar_i & Hp & Hh & Hl).
      exists h_i, w_i, cs_i, bar_i.
      rewrite take_app_le by lia.
      rewrite lookup_app_l by lia. auto.
    + assert (i = length l).
      { apply lookup_lt_Some in Hb. rewrite length_app in Hb. simpl in Hb. lia. }
      subst i. rewrite list_lookup_middle in Hb by reflexivity.
      inversion Hb; subst b.
      exists h1, w1, cs1, bar.
      rewrite take_app_le by lia. rewrite take_ge by lia.
      rewrite list_lookup_middle by lia. rewrite Eb. auto.
Qed.

End PrintLoop.

(** ** The width of a bar *)

(** What the loop body leaves of a bar and what it changes: the width is
    the one computed, everything else is kept, and the line is the
    rendering of the bar so resized. *)
Lemma print_bar_fields render (W : Z) (bar : Bar) :
  let D := sumWidths (decoratorStrings bar) in
  D <= GoInt.max_int ->
  GoInt.in_range (W - D) ->
  exists bar',
    (print_bar render W bar).1 = (bar', (render bar').1) /\
    bar_Width (view bar') = Z.max 10 (W - D) /\
    bar_Total (view bar') = bar_Total (view bar) /\
    bar_current (view bar') = bar_current (view bar) /\
    prependFuncs bar' = prependFuncs bar /\
    appendFuncs bar' = appendFuncs bar.
Proof.
  intros D HD HW. exists (set_Width bar (Z.max 10 (W - D))).
  split; [exact (print_bar_width render W bar HD HW)|].
  simpl. auto.
Qed.



(** ** The fallback width *)

Lemma getTerminalWidth_failed (g : Package) (q : TermQuery) :
  size_err (q (pkg_Out g)) <> None -> getTerminalWidth g q = pkg_Width g.
Proof.
  intros H. unfold getTerminalWidth.
  destruct (size_err (q (pkg_Out g))); [reflexivity | contradiction].
Qed.




(** ** The frame of a tick *)

(** C5. A render pass over a container all of whose bars exist goes
    through, and the calls it makes on the live writer are one
    [Fprintln] for each bar, in the order of [Bars], each with the line
    rendered for that bar, followed by one [Flush] and nothing else. *)
Theorem print_frame (render : Bar -> Eval string) (g : Package)
    (q : TermQuery) (p : Progress) (h : list Bar) :
  Forall (fun a => is_Some (h !! a)) (Bars p) ->
  exists p' h' cs lines,
    print render g q p h = Some (p', h', cs) /\
    lw_calls (lw p') = lw_calls (lw p) ++ map Fprintln lines ++ [Flush] /\
    length lines = length (Bars p) /\
    forall i a, Bars p !! i = Some a ->
      exists h_i w_i cs_i bar,
        print_loop render (getTerminalWidth g q) (take i (Bars p)) h (lw p)
          = Some (h_i, w_i, cs_i) /\
        h_i !! a = Some bar /\
        lines !! i = Some (print_bar render (getTerminalWidth g q) bar).1.2.
Proof.
  intros Hall.
  destruct (print_loop_total render (getTerminalWidth g q) (Bars p) h (lw p) Hall)
    as [[[h' w'] cs] E].
  destruct (print_loop_writes render _ _ _ _ _ _ _ E) as (lines & Hc & _ & Hlen & Hi).
  unfold print. rewrite E.
  eexists _, h', cs, lines. split; [reflexivity|].
  simpl. rewrite Hc, <- app_assoc. auto.
Qed.

Lemma print_frame_witness :
  exists p' h' cs lines,
    print (Bar_String 0) sample_pkg (terminal 30) sample_progress [sample_bar]
      = Some (p', h', cs) /\
    lw_calls (lw p') = [] ++ map Fprintln lines ++ [Flush] /\
    length lines = 1%nat.
Proof.
  destruct (print_frame (Bar_String 0) sample_pkg (terminal 30) sample_progress
              [sample_bar]) as (p' & h' & cs & lines & H1 & H2 & H3 & _).
  - repeat constructor. eexists. reflexivity.
  - exists p', h', cs, lines. auto.
Defined.

(** ** Terminal width detection *)

(** C9. [getTerminalWidth] returns the fallback width, the package-level
    [Width], when the query of the terminal size returns an error and
    also when it succeeds with a width of zero or less; so the width used
    for a tick is positive whenever the fallback width is. *)
Theorem getTerminalWidth_fallback (g : Package) (q : TermQuery) :
  (size_err (q (pkg_Out g)) <> None -> getTerminalWidth g q = pkg_Width g) /\
  (size_err (q (pkg_Out g)) = None -> size_width (q (pkg_Out g)) <= 0 ->
     getTerminalWidth g q = pkg_Width g) /\
  (0 < pkg_Width g -> 0 < getTerminalWidth g q).
Proof.
  split; [apply getTerminalWidth_failed|].
  unfold getTerminalWidth. split.
  - intros Herr Hw. rewrite Herr.
    destruct (Z.ltb_spec 0 (size_width (q (pkg_Out g)))); [lia | reflexivity].
  - intros Hpos. destruct (size_err (q (pkg_Out g))); [exact Hpos|].
    destruct (Z.ltb_spec 0 (size_width (q (pkg_Out g)))); [assumption | exact Hpos].
Qed.

Lemma getTerminalWidth_fallback_witness :
  getTerminalWidth sample_pkg no_terminal = 70 /\
  getTerminalWidth sample_pkg (terminal 0) = 70 /\
  getTerminalWidth sample_pkg (terminal (-3)) = 70 /\
  0 < getTerminalWidth sample_pkg (terminal 0).
Proof.
  destruct (getTerminalWidth_fallback sample_pkg no_terminal) as (H1 & _ & _).
  destruct (getTerminalWidth_fallback sample_pkg (terminal 0)) as (_ & H2 & H3).
  destruct (getTerminalWidth_fallback sample_pkg (terminal (-3))) as (_ & H4 & _).
  split; [apply H1; discriminate|].
  split; [apply H2; [reflexivity | simpl; lia]|].
  split; [apply H4; [reflexivity | simpl; lia]|].
  apply H3. simpl. lia.
Defined.

(** ** The setters *)

(** C10. [SetOut o] stores [o] in the container's [Out] and in the output
    of its live writer, and leaves [Bars], [Width] and [RefreshInterval],
    as well as what was written to the live writer, as they were. *)
Theorem SetOut_frame (o : io_Writer) (p : Progress) :
  Out (SetOut o p) = o /\
  lw_Out (lw (SetOut o p)) = o /\
  Bars (SetOut o p) = Bars p /\
  Width (SetOut o p) = Width p /\
  RefreshInterval (SetOut o p) = RefreshInterval p /\
  lw_calls (lw (SetOut o p)) = lw_calls (lw p).
Proof. unfold SetOut. simpl. repeat split. Qed.

(** ** The fill of a bar *)

Lemma available_width_min (width : Z) (pre app : list string) (overhead : Z) :
  10 <= available_width width pre app overhead.
Proof. unfold available_width. lia. Qed.

(** C6. For a bar whose total is positive, the number of fill glyphs is
    [floor(available_width * clamp(current, 0, total) / total)]; it is
    never negative and never more than the available width, whatever
    [current] is. *)
Theorem fill_length_law (width : Z) (pre app : list string) (overhead : Z)
    (current total : Z) :
  0 < total ->
  let available := available_width width pre app overhead in
  fill_length available current total
    = available * clamp 0 total current / total /\
  0 <= fill_length available current total <= available.
Proof.
  intros Ht available.
  pose proof (available_width_min width pre app overhead) as Hav.
  fold available in Hav.
  unfold fill_length. destruct (Z.leb_spec total 0) as [|_]; [lia|].
  unfold clamp.
  assert (Hcases : current < 0 \/ 0 <= current <= total \/ total < current) by lia.
  destruct Hcases as [Hneg | [Hmid | Hbig]].
  - assert (Hq : available * current / total <= 0).
    { apply Z.div_le_upper_bound; nia. }
    replace (Z.max 0 (Z.min total current)) with 0 by lia.
    rewrite Z.mul_0_r, Z.div_0_l by lia. lia.
  - assert (Hlo : 0 <= available * current / total).
    { apply Z.div_pos; nia. }
    assert (Hhi : available * current / total <= available).
    { apply Z.div_le_upper_bound; nia. }
    replace (Z.max 0 (Z.min total current)) with current by lia. lia.
  - assert (Hq : available <= available * current / total).
    { apply Z.div_le_lower_bound; nia. }
    replace (Z.max 0 (Z.min total current)) with total by lia.
    rewrite Z.div_mul by lia. lia.
Qed.

Lemma fill_length_law_witness :
  fill_length (available_width 20 [] [] 0) 50 100 = 10 /\
  0 <= fill_length (available_width 20 [] [] 0) 50 100
    <= available_width 20 [] [] 0.
Proof.
  destruct (fill_length_law 20 [] [] 0 50 100) as [H1 H2]; [lia|].
  split; [rewrite H1; reflexivity | exact H2].
Defined.

(** ** Evaluations of the decorators *)

Lemma addWidths_calls mk (fs : list DecoratorFunc) : forall i b acc,
  (addWidths mk i fs b acc).2 = callsFrom mk i fs b.
Proof.
  induction fs as [|f fs IH]; intros i b acc; simpl; [reflexivity|].
  unfold bind, call.
  specialize (IH (S i) b (GoInt.add acc (GoInt.add (len (f b)) 1))).
  destruct (addWidths mk (S i) fs b (GoInt.add acc (GoInt.add (len (f b)) 1))).
  simpl in *. congruence.
Qed.

Lemma evalAll_calls mk (fs : list DecoratorFunc) : forall i b,
  (evalAll mk i fs b).2 = callsFrom mk i fs b.
Proof.
  induction fs as [|f fs IH]; intros i b; simpl; [reflexivity|].
  unfold bind, call, ret. specialize (IH (S i) b).
  destruct (evalAll mk (S i) fs b). simpl in *.
  rewrite app_nil_r. congruence.
Qed.

Lemma Bar_String_calls (overhead : Z) (bar : Bar) :
  (Bar_String overhead bar).2 = decoratorCalls bar (view bar).
Proof.
  unfold Bar_String, decoratorCalls, bind, ret.
  pose proof (evalAll_calls Prepend (prependFuncs bar) 0%nat (view bar)) as Hp.
  pose proof (evalAll_calls Append (appendFuncs bar) 0%nat (view bar)) as Ha.
  destruct (evalAll Prepend 0 (prependFuncs bar) (view bar)).
  destruct (evalAll Append 0 (appendFuncs bar) (view bar)).
  simpl in *. rewrite app_nil_r. congruence.
Qed.

Lemma evaluations_app (s : Slot) (l1 l2 : list Call) :
  evaluations s (l1 ++ l2) = (evaluations s l1 + evaluations s l2)%nat.
Proof. unfold evaluations. rewrite map_app. apply count_occ_app. Qed.

Lemma evaluations_callsFrom_other mk (s : Slot) (fs : list DecoratorFunc) :
  forall i v, (forall k, mk k <> s) -> evaluations s (callsFrom mk i fs v) = 0%nat.
Proof.
  induction fs as [|f fs IH]; intros i v Hne; [reflexivity|].
  unfold evaluations in *. simpl.
  destruct (Slot_eq_dec (mk i) s) as [E|_]; [destruct (Hne i E)|].
  apply IH. exact Hne.
Qed.

Lemma evaluations_callsFrom mk (fs : list DecoratorFunc) :
  (forall k k', mk k = mk k' -> k = k') ->
  forall i j v,
    evaluations (mk j) (callsFrom mk i fs v)
    = if decide (i <= j < i + length fs)%nat then 1%nat else 0%nat.
Proof.
  intros Hinj. induction fs as [|f fs IH]; intros i j v.
  - simpl. destruct (decide (i <= j < i + 0)%nat); [lia | reflexivity].
  - unfold evaluations in *. simpl.
    rewrite (IH (S i) j v).
    destruct (Slot_eq_dec (mk i) (mk j)) as [E|NE].
    + apply Hinj in E. subst j.
      destruct (decide (S i <= i < S i + length fs)%nat); [lia|].
      destruct (decide (i <= i < i + S (length fs))%nat); [reflexivity | lia].
    + assert (i <> j) by congruence.
      destruct (decide (S i <= j < S i + length fs)%nat);
        destruct (decide (i <= j < i + S (length fs))%nat); try reflexivity; lia.
Qed.

(** One walk over the decorators of a bar calls each of them once. *)
Lemma evaluations_decoratorCalls (bar : Bar) (v : BarView) (s : Slot) :
  registered bar s -> evaluations s (decoratorCalls bar v) = 1%nat.
Proof.
  unfold decoratorCalls. rewrite evaluations_app.
  destruct s as [i|i]; simpl; intros Hi.
  - rewrite (evaluations_callsFrom Prepend) by congruence.
    rewrite (evaluations_callsFrom_other Append) by congruence.
    destruct (decide (0 <= i < 0 + length (prependFuncs bar))%nat); [reflexivity | lia].
  - rewrite (evaluations_callsFrom_other Prepend) by congruence.
    rewrite (evaluations_callsFrom Append) by congruence.
    destruct (decide (0 <= i < 0 + length (appendFuncs bar))%nat); [reflexivity | lia].
Qed.

(** The calls of one turn of the loop body. *)
Lemma print_bar_calls render (W : Z) (bar : Bar) :
  (print_bar render W bar).2 = turn_calls render W bar.
Proof.
  unfold turn_calls, decoratorCalls, print_bar, bind, ret.
  pose proof (addWidths_calls Prepend (prependFuncs bar) 0%nat (view bar) 0) as H1.
  destruct (addWidths Prepend 0 (prependFuncs bar) (view bar) 0) as [w1 l1].
  pose proof (addWidths_calls Append (appendFuncs bar) 0%nat (view bar) w1) as H2.
  destruct (addWidths Append 0 (appendFuncs bar) (view bar) w1) as [w2 l2].
  destruct (render (set_Width bar (barWidth W w2))) as [line l3] eqn:E.
  simpl in *. rewrite E. simpl. subst l1 l2.
  rewrite app_nil_r, <- app_assoc. reflexivity.
Qed.

Lemma print_bar_decorators render (W : Z) (bar : Bar) :
  prependFuncs (print_bar render W bar).1.1 = prependFuncs bar /\
  appendFuncs (print_bar render W bar).1.1 = appendFuncs bar.
Proof.
  unfold print_bar, bind, ret.
  destruct (addWidths Prepend 0 (prependFuncs bar) (view bar) 0) as [w1 l1].
  destruct (addWidths Append 0 (appendFuncs bar) (view bar) w1) as [w2 l2].
  destruct (render (set_Width bar (barWidth W w2))) as [line l3].
  simpl. auto.
Qed.

(** The calls of a pass are those of its turns, in order, each on the bar
    the loop found at that turn. *)
Lemma print_loop_calls render (W : Z) (l : list nat) : forall h w h' w' cs,
  print_loop render W l h w = Some (h', w', cs) ->
  exists found : list Bar,
    length found = length l /\
    (forall i a, l !! i = Some a ->
       exists h_i w_i cs_i bar,
         print_loop render W (take i l) h w = Some (h_i, w_i, cs_i) /\
         h_i !! a = Some bar /\ found !! i = Some bar) /\
    cs = concat (map (turn_calls render W) found).
Proof.
  induction l as [|a l IH] using rev_ind; intros h w h' w' cs H.
  - simpl in H. inversion H; subst. exists []. simpl.
    repeat split; try reflexivity.
    intros i a Hi. destruct i; discriminate.
  - rewrite print_loop_app in H.
    destruct (print_loop render W l h w) as [[[h1 w1] cs1]|] eqn:E1; [|discriminate].
    simpl in H. destruct (h1 !! a) as [bar|] eqn:Ha; [|discriminate].
    pose proof (print_bar_calls render W bar) as Hc.
    destruct (print_bar render W bar) as [[bar' line] cs0] eqn:Eb.
    inversion H; subst. clear H. simpl in Hc.
    destruct (IH _ _ _ _ _ E1) as (found & Hlen & Hi & Hcs).
    exists (found ++ [bar]).
    split; [rewrite !length_app; simpl; lia|]. split.
    + intros i b Hb.
      destruct (decide (i < length l)%nat) as [Hlt|Hge].
      * rewrite lookup_app_l in Hb by exact Hlt.
        destruct (Hi i b Hb) as (h_i & w_i & cs_i & bar_i & Hp & Hh & Hl).
        exists h_i, w_i, cs_i, bar_i.
        rewrite take_app_le by lia.
        rewrite lookup_app_l by lia. auto.
      * assert (i = length l).
        { apply lookup_lt_Some in Hb. rewrite length_app in Hb. simpl in Hb. lia. }
        subst i. rewrite list_lookup_middle in Hb by reflexivity.
        inversion Hb; subst b.
        exists h1, w1, cs1, bar.
        rewrite take_app_le by lia. rewrite take_ge by lia.
        rewrite list_lookup_middle by lia. auto.
    + rewrite map_app, concat_app. simpl. rewrite !app_nil_r.
      rewrite Hcs, Hc. reflexivity.
Qed.

(** With the rendering of the spec, a turn calls each decorator twice. *)
Lemma print_bar_twice (overhead : Z) (W : Z) (bar : Bar) (s : Slot) :
  registered bar s ->
  evaluations s (turn_calls (Bar_String overhead) W bar) = 2%nat.
Proof.
  intros Hs. unfold turn_calls. rewrite evaluations_app.
  rewrite (evaluations_decoratorCalls bar (view bar) s Hs).
  rewrite Bar_String_calls.
  destruct (print_bar_decorators (Bar_String overhead) W bar) as [Hp Ha].
  rewrite evaluations_decoratorCalls; [reflexivity|].
  destruct s; simpl in *; [rewrite Hp | rewrite Ha]; exact Hs.
Qed.

(** C3, as stated, fails.  With the rendering of the spec, in a tick over
    one bar with one prepend decorator, that decorator is evaluated
    twice.  And whatever [bar.String()] does, in a tick over a container
    in which the bar occurs twice, [print] alone evaluates it twice. *)
Lemma decorator_evaluated_twice :
  (exists p' h' cs,
     print (Bar_String 0) sample_pkg (terminal 30) sample_progress [sample_bar]
       = Some (p', h', cs) /\
     registered sample_bar (Prepend 0) /\
     evaluations (Prepend 0) cs = 2%nat /\
     evaluations (Prepend 0) cs <> 1%nat) /\
  (forall render : Bar -> Eval string,
     exists p' h' cs,
       print render sample_pkg (terminal 30) twice_progress [sample_bar]
         = Some (p', h', cs) /\
       (2 <= evaluations (Prepend 0) cs)%nat /\
       evaluations (Prepend 0) cs <> 1%nat).
Proof.
  split.
  - eexists _, _, _. split; [vm_compute; reflexivity|].
    split; [simpl; lia|]. split; [reflexivity | vm_compute; discriminate].
  - intros render. unfold print.
    set (W := getTerminalWidth sample_pkg (terminal 30)).
    destruct (print_loop_total render W (Bars twice_progress) [sample_bar]
                (lw twice_progress)) as [[[h1 w1] cs1] E].
    { repeat constructor; eexists; reflexivity. }
    rewrite E. eexists _, _, _. split; [reflexivity|].
    destruct (print_loop_calls render W _ _ _ _ _ _ E) as (found & Hlen & Hi & ->).
    destruct found as [|f0 [|f1 [|f2 found]]]; try discriminate Hlen.
    destruct (Hi 0%nat 0%nat eq_refl) as (h_0 & w_0 & cs_0 & b0 & H0 & Hb0 & Hf0).
    destruct (Hi 1%nat 0%nat eq_refl) as (h_1 & w_1 & cs_1 & b1 & H1 & Hb1 & Hf1).
    simpl in H0, Hf0, Hf1. inversion H0; subst h_0 w_0 cs_0. clear H0.
    inversion Hb0; subst b0. inversion Hf0; subst f0. inversion Hf1; subst f1.
    clear Hb0 Hf0 Hf1.
    assert (Hreg : registered b1 (Prepend 0)).
    { simpl in H1.
      destruct (print_bar_decorators render W sample_bar) as [Hp _].
      destruct (print_bar render W sample_bar) as [[b line] c].
      inversion H1; subst h_1. simpl in Hb1. inversion Hb1; subst b1.
      simpl in *. rewrite Hp. simpl. lia. }
    assert (H2 : (2 <= evaluations (Prepend 0)
                     (concat (map (turn_calls render W) [sample_bar; b1])))%nat).
    { cbn [concat map]. rewrite !evaluations_app. unfold turn_calls.
      rewrite !evaluations_app.
      rewrite (evaluations_decoratorCalls sample_bar (view sample_bar) (Prepend 0))
        by (simpl; lia).
      rewrite (evaluations_decoratorCalls b1 (view b1) (Prepend 0) Hreg). lia. }
    split; [exact H2 | lia].
Qed.

(** C3, amended. The decorator calls of a tick are those of the turns of
    the loop of [print], one turn for each occurrence of a bar in [Bars],
    in order.  In a turn, [print] itself evaluates each registered
    decorator of the bar exactly once, on the bar as it finds it, and
    keeps only the length of the string; the line comes from
    [bar.String()], which is given the bar alone, after its width was
    assigned, so every evaluation by [bar.String()] comes on top.  With
    the rendering of the spec, which evaluates each decorator once for the
    line, each registered decorator is evaluated exactly twice in a
    turn. *)
Theorem print_evaluations (render : Bar -> Eval string) (g : Package)
    (q : TermQuery) (p : Progress) (h : list Bar) p' h' cs :
  let W := getTerminalWidth g q in
  print render g q p h = Some (p', h', cs) ->
  exists found : list Bar,
    length found = length (Bars p) /\
    (forall i a, Bars p !! i = Some a ->
       exists h_i w_i cs_i bar,
         print_loop render W (take i (Bars p)) h (lw p) = Some (h_i, w_i, cs_i) /\
         h_i !! a = Some bar /\ found !! i = Some bar) /\
    cs = concat (map (turn_calls render W) found) /\
    (forall bar s, registered bar s ->
       evaluations s (decoratorCalls bar (view bar)) = 1%nat /\
       evaluations s (turn_calls render W bar)
         = (1 + evaluations s (render (print_bar render W bar).1.1).2)%nat) /\
    (forall overhead, render = Bar_String overhead ->
       forall bar s, registered bar s ->
         evaluations s (turn_calls render W bar) = 2%nat).
Proof.
  intros W H. unfold print in H. fold W in H.
  destruct (print_loop render W (Bars p) h (lw p))
    as [[[h1 w1] cs1]|] eqn:E; [|discriminate].
  inversion H; subst. clear H.
  destruct (print_loop_calls render W _ _ _ _ _ _ E) as (found & Hlen & Hi & Hcs).
  exists found. split; [exact Hlen|]. split; [exact Hi|]. split; [exact Hcs|].
  split.
  - intros bar s Hs.
    pose proof (evaluations_decoratorCalls bar (view bar) s Hs) as E1.
    split; [exact E1|].
    unfold turn_calls. rewrite evaluations_app, E1. reflexivity.
  - intros overhead -> bar s Hs. apply print_bar_twice. exact Hs.
Qed.

Lemma print_evaluations_witness :
  exists p' h' cs,
    print (Bar_String 0) sample_pkg (terminal 30) twice_progress [sample_bar]
      = Some (p', h', cs) /\
    cs = turn_calls (Bar_String 0) 30 sample_bar
         ++ turn_calls (Bar_String 0) 30 (set_Width sample_bar 23) /\
    evaluations (Append 0) (turn_calls (Bar_String 0) 30 sample_bar) = 2%nat /\
    evaluations (Append 0) cs = 4%nat.
Proof.
  destruct (print (Bar_String 0) sample_pkg (terminal 30) twice_progress
              [sample_bar]) as [[[p' h'] cs]|] eqn:E.
  - destruct (print_evaluations (Bar_String 0) sample_pkg (terminal 30)
                twice_progress [sample_bar] p' h' cs E)
      as (found & _ & _ & _ & _ & Htwice).
    exists p', h', cs.
    vm_compute in E. inversion E; subst. clear E.
    split; [reflexivity|]. split; [vm_compute; reflexivity|].
    split; [|reflexivity].
    apply (Htwice 0 eq_refl sample_bar (Append 0)). simpl. lia.
  - vm_compute in E. discriminate.
Defined.

(** ** What a render pass leaves alone *)

Lemma print_fields (render : Bar -> Eval string) (g : Package) (q : TermQuery)
    (p : Progress) (h : list Bar) p' h' cs :
  print render g q p h = Some (p', h', cs) ->
  Bars p' = Bars p /\ RefreshInterval p' = RefreshInterval p /\
  Width p' = Width p /\ Out p' = Out p /\ length h' = length h.
Proof.
  unfold print. intros H.
  destruct (print_loop render (getTerminalWidth g q) (Bars p) h (lw p))
    as [[[h1 w1] cs1]|] eqn:E; [|discriminate].
  inversion H; subst. simpl.
  apply print_loop_length in E. auto.
Qed.

(** ** Shapes of a history

    Histories are newest first: [post ++ e :: pre] reads "[pre], then [e],
    then [post]". *)

Lemma quiet_nil : quiet [].
Proof. intros []. Qed.

Lemma quiet_cons (e : Event) (l : list Event) :
  e <> EvPrint -> quiet l -> quiet (e :: l).
Proof. intros He Hl [H|H]; [congruence | exact (Hl H)]. Qed.

Lemma after_signal_cons e hist :
  e <> EvPrint -> after_signal hist -> after_signal (e :: hist).
Proof.
  intros He (m & r & -> & Hq). exists (e :: m), r.
  split; [reflexivity | apply quiet_cons; assumption].
Qed.

Lemma after_print_cons e hist :
  e <> EvPrint -> after_print hist -> after_print (e :: hist).
Proof.
  intros He (m & r & -> & Hq & Hr). exists (e :: m), r.
  split; [reflexivity | split; [apply quiet_cons; assumption | exact Hr]].
Qed.

Lemma after_close_cons e hist :
  e <> EvPrint -> after_close hist -> after_close (e :: hist).
Proof.
  intros He (m & r & -> & Hq & Hr). exists (e :: m), r.
  split; [reflexivity | split; [apply quiet_cons; assumption | exact Hr]].
Qed.

Lemma after_stopped_cons e hist :
  e <> EvPrint -> after_stopped hist -> after_stopped (e :: hist).
Proof.
  intros He (m & r & -> & Hq & Hr). exists (e :: m), r.
  split; [reflexivity | split; [apply quiet_cons; assumption | exact Hr]].
Qed.

Lemma after_signal_intro hist : after_signal (EvSignal :: hist).
Proof. exists [], hist. split; [reflexivity | apply quiet_nil]. Qed.

Lemma after_print_intro hist : after_signal hist -> after_print (EvPrint :: hist).
Proof. intros H. exists [], hist. split; [reflexivity | split; [apply quiet_nil | exact H]]. Qed.

Lemma after_close_intro hist : after_print hist -> after_close (EvClose :: hist).
Proof. intros H. exists [], hist. split; [reflexivity | split; [apply quiet_nil | exact H]]. Qed.

Lemma after_stopped_intro hist : after_close hist -> after_stopped (EvStopped :: hist).
Proof. intros H. exists [], hist. split; [reflexivity | split; [apply quiet_nil | exact H]]. Qed.

Create HintDb shapes.
#[local] Hint Resolve after_signal_cons after_print_cons after_close_cons
  after_stopped_cons after_signal_intro after_print_intro after_close_intro
  after_stopped_intro : shapes.

(** ** The handshake of [Stop] *)

Lemma not_in_cons_event (e e' : Event) (l : list Event) :
  e' <> e -> ~ In e l -> ~ In e (e' :: l).
Proof. intros Hne Hl [H|H]; [congruence | exact (Hl H)]. Qed.

Lemma handshake_step g render s e s' hist :
  step g render s e s' -> handshake s hist -> handshake s' (e :: hist).
Proof.
  intros Hstep. unfold handshake.
  destruct Hstep; simpl;
    repeat match goal with
           | x : StopPc |- _ => destruct x
           | x : LoopPc |- _ => destruct x
           end; simpl;
    try tauto;
    intros Hinv; decompose [and] Hinv; clear Hinv;
    repeat split;
    try reflexivity; try assumption; try discriminate;
    try (apply not_in_cons_event; [discriminate | assumption]);
    eauto with shapes;
    try (apply after_signal_cons; [discriminate | assumption]);
    try (apply after_print_cons; [discriminate | assumption]);
    try (apply after_close_cons; [discriminate | assumption]);
    try (apply after_stopped_cons; [discriminate | assumption]).
Qed.

Lemma handshake_reach g render p h hist s :
  reach g render (initial p h) hist s -> handshake s hist.
Proof.
  induction 1 as [|hist s e s' _ IH Hstep].
  - unfold handshake, initial. simpl. split; [reflexivity | split; intros []].
  - eapply handshake_step; eassumption.
Qed.

Lemma print_total (render : Bar -> Eval string) (g : Package) (q : TermQuery)
    (p : Progress) (h : list Bar) :
  Forall (fun a => is_Some (h !! a)) (Bars p) ->
  exists p' h' cs, print render g q p h = Some (p', h', cs).
Proof.
  intros Hall.
  destruct (print_loop_total render (getTerminalWidth g q) (Bars p) h (lw p) Hall)
    as [[[h' w'] cs] E].
  unfold print. rewrite E. eauto.
Qed.

(** Once the signal of [Stop] has been taken, the loop and [Stop] can run
    to their ends, provided the final render pass finds its bars. *)
Lemma Stop_completes g render s0 hist s :
  reach g render s0 hist s ->
  handshake s hist ->
  In EvSignal hist ->
  Forall (fun a => is_Some (sys_heap s !! a)) (Bars (sys_progress s)) ->
  exists hist' s',
    reach g render s0 (hist' ++ hist) s' /\ sys_stop s' = SDone /\
    In EvStopped (hist' ++ hist).
Proof.
  intros Hreach Hinv Hsig Hall. unfold handshake in Hinv.
  destruct s as [p h l st c]. simpl in *.
  destruct st, l; try tauto; simpl in *.
  - destruct Hinv as (-> & _ & _).
    destruct (print_total render g (fun _ => mkSize 0 0 None) p h Hall)
      as (p' & h' & cs & Hp).
    exists [EvStopped; EvClose; EvPrint]. eexists. split.
    { simpl. eapply reach_cons; [eapply reach_cons; [eapply reach_cons;
        [exact Hreach|]|]|].
      - eapply step_print_final. exact Hp.
      - apply step_close.
      - apply step_Stopped. }
    split; [reflexivity | simpl; auto].
  - destruct Hinv as (-> & _ & _).
    exists [EvStopped; EvClose]. eexists. split.
    { simpl. eapply reach_cons; [eapply reach_cons; [exact Hreach|]|].
      - apply step_close.
      - apply step_Stopped. }
    split; [reflexivity | simpl; auto].
  - destruct Hinv as (-> & _ & _).
    exists [EvStopped]. eexists. split.
    { simpl. eapply reach_cons; [exact Hreach|]. apply step_Stopped. }
    split; [reflexivity | simpl; auto].
  - destruct Hinv as (_ & post & rest & -> & _).
    exists []. eexists. split; [exact Hreach|]. split; [reflexivity|].
    simpl. apply in_or_app. right. left. reflexivity.
Qed.

(** The calls one render pass adds to those on the writer. *)
Lemma print_calls render g q p h p' h' cs :
  print render g q p h = Some (p', h', cs) ->
  exists lines,
    lw_calls (lw p') = lw_calls (lw p) ++ map Fprintln lines ++ [Flush] /\
    length lines = length (Bars p).
Proof.
  unfold print. intros H.
  destruct (print_loop render (getTerminalWidth g q) (Bars p) h (lw p))
    as [[[h1 w1] cs1]|] eqn:E; [|discriminate].
  inversion H; subst. clear H.
  destruct (print_loop_writes render _ _ _ _ _ _ _ E) as (lines & Hc & _ & Hlen & _).
  exists lines. simpl. rewrite Hc, <- app_assoc. auto.
Qed.

(** Runs compose, and split at any point of their history. *)
Lemma reach_app g render s0 h1 s1 h2 s2 :
  reach g render s0 h1 s1 -> reach g render s1 h2 s2 ->
  reach g render s0 (h2 ++ h1) s2.
Proof.
  intros H1 H2. induction H2 as [|hist s e s' _ IH Hstep]; [exact H1|].
  simpl. eapply reach_cons; [exact IH | exact Hstep].
Qed.

Lemma reach_split g render s0 (h2 : list Event) : forall h1 s,
  reach g render s0 (h2 ++ h1) s ->
  exists s1, reach g render s0 h1 s1 /\ reach g render s1 h2 s.
Proof.
  induction h2 as [|e h2 IH]; intros h1 s H; simpl in H.
  - exists s. split; [exact H | apply reach_nil].
  - inversion H as [|? s' ? ? Hr Hstep]; subst.
    destruct (IH _ _ Hr) as (s1 & Ha & Hb).
    exists s1. split; [exact Ha|]. eapply reach_cons; eassumption.
Qed.

Lemma reach_one g render s e s' :
  reach g render s [e] s' -> step g render s e s'.
Proof.
  intros H. inversion H as [|? s1 ? ? Hnil Hstep]; subst.
  inversion Hnil; subst. exact Hstep.
Qed.

(** Only a render pass calls the live writer. *)
Lemma quiet_calls g render s hist s' :
  reach g render s hist s' -> quiet hist ->
  lw_calls (lw (sys_progress s')) = lw_calls (lw (sys_progress s)).
Proof.
  induction 1 as [|hist s1 e s2 _ IH Hstep]; intros Hq; [reflexivity|].
  assert (He : e <> EvPrint) by (intros ->; apply Hq; left; reflexivity).
  rewrite <- IH by (intros Hin; apply Hq; right; exact Hin).
  destruct Hstep; simpl; try reflexivity; congruence.
Qed.

(** What one render pass of the loop hands to the live writer. *)
Lemma step_print_calls g render s s' :
  step g render s EvPrint s' ->
  exists lines,
    length lines = length (Bars (sys_progress s)) /\
    lw_calls (lw (sys_progress s'))
      = lw_calls (lw (sys_progress s)) ++ map Fprintln lines ++ [Flush].
Proof.
  intros Hstep. inversion Hstep; subst; simpl;
    match goal with Hp : print _ _ _ _ _ = Some _ |- _ =>
      destruct (print_calls _ _ _ _ _ _ _ _ Hp) as (lines & Hc & Hlen) end;
    exists lines; auto.
Qed.

Lemma print_valid render g q p (h : list Bar) p' h' cs :
  print render g q p h = Some (p', h', cs) ->
  Forall (fun a => is_Some (h !! a)) (Bars p) ->
  Forall (fun a => is_Some (h' !! a)) (Bars p').
Proof.
  intros H Hall. apply print_fields in H. destruct H as (-> & _ & _ & _ & Hlen).
  eapply Forall_impl; [exact Hall|]. intros a Ha. simpl in *.
  apply lookup_lt_is_Some. rewrite Hlen. apply lookup_lt_is_Some. exact Ha.
Qed.

(** A loop that is idle was never started, and a [Stop] that is idle was
    never called. *)
Lemma idle_not_called g render p h hist s :
  reach g render (initial p h) hist s ->
  (sys_loop s = LIdle -> ~ In EvStart hist) /\
  (sys_stop s = SIdle -> ~ In EvStop hist).
Proof.
  induction 1 as [|hist s e s' _ [IHl IHs] Hstep].
  - split; intros _ [].
  - destruct Hstep; simpl in *; split; intros Hpc; try discriminate;
      apply not_in_cons_event; try discriminate; auto.
Qed.

Lemma after_signal_In hist : after_signal hist -> In EvSignal hist.
Proof.
  intros (m & r & -> & _). apply in_or_app. right. left. reflexivity.
Qed.

Lemma after_print_In hist : after_print hist -> In EvSignal hist.
Proof.
  intros (m & r & -> & _ & H). apply in_or_app. right. right.
  exact (after_signal_In _ H).
Qed.

Lemma after_close_In hist : after_close hist -> In EvSignal hist.
Proof.
  intros (m & r & -> & _ & H). apply in_or_app. right. right.
  exact (after_print_In _ H).
Qed.

Lemma after_stopped_In hist : after_stopped hist -> In EvSignal hist.
Proof.
  intros (m & r & -> & _ & H). apply in_or_app. right. right.
  exact (after_close_In _ H).
Qed.

(** Once the loop is started and [Stop] is called, the loop can take the
    signal and both can run to their ends, provided the render passes on
    the way find their bars. *)
Lemma Stop_can_return g render s0 hist s :
  reach g render s0 hist s ->
  handshake s hist ->
  sys_loop s <> LIdle ->
  sys_stop s <> SIdle ->
  Forall (fun a => is_Some (sys_heap s !! a)) (Bars (sys_progress s)) ->
  exists hist' s',
    reach g render s0 (hist' ++ hist) s' /\ sys_stop s' = SDone /\
    In EvStopped (hist' ++ hist).
Proof.
  intros Hreach Hinv Hl Hs Hall.
  destruct (in_dec Event_eq_dec EvSignal hist) as [Hsig|Hnsig].
  { eapply Stop_completes; eassumption. }
  unfold handshake in Hinv.
  destruct s as [p h l st c]. simpl in *.
  destruct st, l; try tauto; try congruence; simpl in *;
    try (destruct Hinv as (_ & _ & Hsh);
         first [ apply after_signal_In in Hsh | apply after_print_In in Hsh
               | apply after_close_In in Hsh ]; contradiction);
    try (destruct Hinv as (_ & Hsh); apply after_stopped_In in Hsh; contradiction);
    destruct Hinv as (-> & _ & _).
  - (* the loop is about to read the interval *)
    destruct (print_total render g (fun _ => mkSize 0 0 None) p h Hall)
      as (p' & h' & cs & Hp).
    exists [EvStopped; EvClose; EvPrint; EvSignal; EvRead (RefreshInterval p)].
    eexists. split.
    { simpl. eapply reach_cons; [eapply reach_cons; [eapply reach_cons;
        [eapply reach_cons; [eapply reach_cons; [exact Hreach|]|]|]|]|].
      - apply step_read.
      - apply step_signal.
      - eapply step_print_final. exact Hp.
      - apply step_close.
      - apply step_Stopped. }
    split; [reflexivity | simpl; auto].
  - (* the loop waits in its select *)
    destruct (print_total render g (fun _ => mkSize 0 0 None) p h Hall)
      as (p' & h' & cs & Hp).
    exists [EvStopped; EvClose; EvPrint; EvSignal]. eexists. split.
    { simpl. eapply reach_cons; [eapply reach_cons; [eapply reach_cons;
        [eapply reach_cons; [exact Hreach|]|]|]|].
      - apply step_signal.
      - eapply step_print_final. exact Hp.
      - apply step_close.
      - apply step_Stopped. }
    split; [reflexivity | simpl; auto].
  - (* the loop is about to paint on its timer *)
    destruct (print_total render g (fun _ => mkSize 0 0 None) p h Hall)
      as (p1 & h1 & cs1 & Hp1).
    pose proof (print_valid _ _ _ _ _ _ _ _ Hp1 Hall) as Hall1.
    destruct (print_total render g (fun _ => mkSize 0 0 None) p1 h1 Hall1)
      as (p2 & h2 & cs2 & Hp2).
    exists [EvStopped; EvClose; EvPrint; EvSignal; EvRead (RefreshInterval p1);
            EvPrint].
    eexists. split.
    { simpl. eapply reach_cons; [eapply reach_cons; [eapply reach_cons;
        [eapply reach_cons; [eapply reach_cons; [eapply reach_cons;
          [exact Hreach|]|]|]|]|]|].
      - eapply step_print_tick. exact Hp1.
      - apply step_read.
      - apply step_signal.
      - eapply step_print_final. exact Hp2.
      - apply step_close.
      - apply step_Stopped. }
    split; [reflexivity | simpl; auto].
Qed.


Lemma stopped_run :
  reach sample_pkg (Bar_String 0) (initial empty_progress []) stopped_history
    stopped_state.
Proof.
  unfold stopped_history, stopped_state, initial.
  eapply reach_cons; [eapply reach_cons; [eapply reach_cons; [eapply reach_cons;
    [eapply reach_cons; [eapply reach_cons; [eapply reach_cons;
      [apply reach_nil|]|]|]|]|]|]|].
  - apply step_Start.
  - apply (step_read _ _ empty_progress).
  - apply step_Stop.
  - apply step_signal.
  - eapply (step_print_final _ _ _ _ _ _ (terminal 80)). reflexivity.
  - apply step_close.
  - apply step_Stopped.
Defined.

Lemma painted_run :
  reach sample_pkg (Bar_String 0) (initial sample_progress [sample_bar])
    stopped_history painted_state.
Proof.
  unfold stopped_history, painted_state, initial.
  eapply reach_cons; [eapply reach_cons; [eapply reach_cons; [eapply reach_cons;
    [eapply reach_cons; [eapply reach_cons; [eapply reach_cons;
      [apply reach_nil|]|]|]|]|]|]|].
  - apply step_Start.
  - apply (step_read _ _ sample_progress).
  - apply step_Stop.
  - apply step_signal.
  - eapply (step_print_final _ _ _ _ _ _ (terminal 30)). vm_compute. reflexivity.
  - apply step_close.
  - apply step_Stopped.
Defined.

Lemma ticking_run :
  reach sample_pkg (Bar_String 0) (initial sample_progress [sample_bar])
    ticking_history ticking_state.
Proof.
  unfold ticking_history, ticking_state, initial.
  eapply reach_cons; [eapply reach_cons; [eapply reach_cons; [eapply reach_cons;
    [apply reach_nil|]|]|]|].
  - apply step_Start.
  - apply (step_read _ _ sample_progress).
  - apply step_tick.
  - apply step_Stop.
Defined.


(** ** The refresh interval *)

Lemma split_cons_event (e e' : Event) (hist after before : list Event) :
  e :: hist = after ++ e' :: before ->
  (after = [] /\ e = e' /\ hist = before) \/
  (exists after', after = e :: after' /\ hist = after' ++ e' :: before).
Proof.
  destruct after as [|x after']; simpl; intros H; inversion H; subst.
  - left. auto.
  - right. eauto.
Qed.

Lemma waiting_cons (e : Event) (d : Z) (hist : list Event) :
  loop_event e = false -> waiting d hist -> waiting d (e :: hist).
Proof.
  intros He (env & rest & -> & Henv). exists (e :: env), rest.
  split; [reflexivity | constructor; assumption].
Qed.

Lemma waiting_read (d : Z) (hist : list Event) : waiting d (EvRead d :: hist).
Proof. exists [], hist. split; [reflexivity | constructor]. Qed.

Lemma reads_ok_cons init (e : Event) (hist : list Event) :
  (forall d, e = EvRead d -> d = stored_interval init hist) ->
  reads_ok init hist -> reads_ok init (e :: hist).
Proof.
  intros He Hr after d before Hsplit.
  destruct (split_cons_event _ _ _ _ _ Hsplit) as [(_ & -> & <-) | (a' & _ & Hh)].
  - apply He. reflexivity.
  - eapply Hr. exact Hh.
Qed.

Lemma ticks_ok_cons (e : Event) (hist : list Event) :
  (forall d, e = EvTick d -> waiting d hist) ->
  ticks_ok hist -> ticks_ok (e :: hist).
Proof.
  intros He Ht after d before Hsplit.
  destruct (split_cons_event _ _ _ _ _ Hsplit) as [(_ & -> & <-) | (a' & _ & Hh)].
  - apply He. reflexivity.
  - eapply Ht. exact Hh.
Qed.

Lemma interval_step g render init s e s' hist :
  step g render s e s' -> interval_inv init s hist -> interval_inv init s' (e :: hist).
Proof.
  intros Hstep (Hcur & Hsel & Hreads & Hticks).
  destruct Hstep;
    cbn [sys_progress sys_loop stored_interval RefreshInterval
         SetRefreshInterval SetOut AddBar fst snd] in *;
    (split; [| split; [| split]]);
    try (apply reads_ok_cons; [intros ? [=]; subst; auto | assumption]);
    try (apply ticks_ok_cons; [intros ? [=]; subst; auto | assumption]);
    try (intros ? [=]; subst; first [apply waiting_read
                                    | apply waiting_cons; [reflexivity | auto]]);
    try assumption; try reflexivity.
  - match goal with H : print _ _ _ _ _ = Some _ |- _ =>
      apply print_fields in H; destruct H as (_ & HR & _) end.
    simpl. rewrite HR. assumption.
  - match goal with H : print _ _ _ _ _ = Some _ |- _ =>
      apply print_fields in H; destruct H as (_ & HR & _) end.
    simpl. rewrite HR. assumption.
Qed.

Lemma interval_reach g render p h hist s :
  reach g render (initial p h) hist s ->
  interval_inv (RefreshInterval p) s hist.
Proof.
  induction 1 as [|hist s e s' _ IH Hstep].
  - unfold interval_inv, initial. simpl. split; [reflexivity|].
    split; [intros d [=]|].
    split; intros after d before Hsplit; destruct after; discriminate.
  - eapply interval_step; eassumption.
Qed.

Lemma stored_interval_app (init : Z) (env rest : list Event) :
  (forall w, ~ In (EvSetRefreshInterval w) env) ->
  stored_interval init (env ++ rest) = stored_interval init rest.
Proof.
  induction env as [|e env IH]; intros Hno; [reflexivity|].
  assert (Hrest : forall w, ~ In (EvSetRefreshInterval w) env).
  { intros w Hin. apply (Hno w). right. exact Hin. }
  destruct e; simpl; try (apply IH; exact Hrest).
  exfalso. eapply Hno. left. reflexivity.
Qed.

(** C7. In every run, each read of [RefreshInterval] by the loop obtains
    the interval stored last, by [SetRefreshInterval] or at the start, and
    each sleep that elapses lasts the interval the loop read at the top of
    that same iteration.  So an interval stored by [SetRefreshInterval] is
    what the loop reads, and sleeps for, in the first iteration that
    begins after the call, unless another call came in between. *)
Theorem Listen_rereads_interval (g : Package) (render : Bar -> Eval string)
    (p : Progress) (h : list Bar) (hist : list Event) (s : System) :
  reach g render (initial p h) hist s ->
  RefreshInterval (sys_progress s) = stored_interval (RefreshInterval p) hist /\
  (forall after d before, hist = after ++ EvRead d :: before ->
     d = stored_interval (RefreshInterval p) before) /\
  (forall after d before, hist = after ++ EvTick d :: before ->
     exists env rest, before = env ++ EvRead d :: rest /\ caller_events env) /\
  (forall after d env v before,
     hist = after ++ EvRead d :: env ++ EvSetRefreshInterval v :: before ->
     (forall w, ~ In (EvSetRefreshInterval w) env) ->
     d = v).
Proof.
  intros Hreach.
  destruct (interval_reach _ _ _ _ _ _ Hreach) as (Hcur & _ & Hreads & Hticks).
  split; [exact Hcur|]. split; [exact Hreads|]. split; [exact Hticks|].
  intros after d env v before Hsplit Hno.
  rewrite (Hreads _ _ _ Hsplit).
  rewrite (stored_interval_app _ _ _ Hno). reflexivity.
Qed.

Lemma step_read_at g render p h st c d :
  d = RefreshInterval p ->
  step g render (mkSystem p h LRead st c) (EvRead d) (mkSystem p h (LSelect d) st c).
Proof. intros ->. apply step_read. Qed.

Lemma retimed_run :
  reach sample_pkg (Bar_String 0) (initial empty_progress []) retimed_history
    retimed_state.
Proof.
  unfold retimed_history, retimed_state, initial.
  eapply reach_cons; [eapply reach_cons; [eapply reach_cons; [eapply reach_cons;
    [eapply reach_cons; [eapply reach_cons; [eapply reach_cons;
      [apply reach_nil|]|]|]|]|]|]|].
  - apply step_Start.
  - apply step_read_at. reflexivity.
  - apply step_SetRefreshInterval.
  - apply step_tick.
  - eapply (step_print_tick _ _ _ _ _ _ (terminal 80)). reflexivity.
  - apply step_read_at. reflexivity.
  - apply step_tick.
Defined.

Lemma Listen_rereads_interval_witness :
  RefreshInterval (sys_progress retimed_state) = 1000 /\
  (forall after d before,
     retimed_history = after ++ EvTick d :: before ->
     exists env rest, before = env ++ EvRead d :: rest /\ caller_events env) /\
  (forall d,
     retimed_history
       = [EvTick 1000] ++ EvRead d :: [EvPrint; EvTick 10]
           ++ EvSetRefreshInterval 1000 :: [EvRead 10; EvStart] ->
     d = 1000).
Proof.
  destruct (Listen_rereads_interval sample_pkg (Bar_String 0) empty_progress []
              retimed_history retimed_state retimed_run) as (H1 & _ & H3 & H4).
  split; [exact H1|]. split; [exact H3|].
  intros d Hd. apply (H4 _ _ _ _ _ Hd).
  intros w [E|[E|[]]]; discriminate.
Defined.

(** ** The bars of a container *)

Lemma step_Bars g render s e s' :
  step g render s e s' ->
  Bars (sys_progress s) `prefix_of` Bars (sys_progress s').
Proof.
  destruct 1; simpl; try reflexivity.
  - apply print_fields in H. destruct H as (-> & _). reflexivity.
  - apply print_fields in H. destruct H as (-> & _). reflexivity.
  - apply prefix_app_r. reflexivity.
Qed.

Lemma reach_Bars g render s0 hist s :
  reach g render s0 hist s ->
  Bars (sys_progress s0) `prefix_of` Bars (sys_progress s).
Proof.
  induction 1 as [|hist s e s' _ IH Hstep]; [reflexivity|].
  etransitivity; [exact IH | eapply step_Bars; exact Hstep].
Qed.

(** C8. At any point of a run, the bars the container began with are a
    prefix of its bars: no step of the container removes or reorders one.
    [AddBar total], called there, returns a pointer to a bar that was not
    in the store, holds the given total and the container's [Width]; the
    bars of the container become the former ones followed by that pointer,
    and no other bar of the store changes. *)
Theorem AddBar_appends (g : Package) (render : Bar -> Eval string)
    (p0 : Progress) (h0 : list Bar) (hist : list Event) (s : System)
    (total : Z) :
  reach g render (initial p0 h0) hist s ->
  let p := sys_progress s in
  let h := sys_heap s in
  let a := (AddBar g total p h).1.1 in
  let p' := (AddBar g total p h).1.2 in
  let h' := (AddBar g total p h).2 in
  Bars p0 `prefix_of` Bars p /\
  Bars p' = Bars p ++ [a] /\
  h !! a = None /\
  (exists bar, h' !! a = Some bar /\
     bar_Total (view bar) = total /\ bar_Width (view bar) = Width p) /\
  (forall b x, h !! b = Some x -> h' !! b = Some x) /\
  Width p' = Width p /\ RefreshInterval p' = RefreshInterval p /\
  Out p' = Out p /\ lw p' = lw p.
Proof.
  intros Hreach p h a p' h'.
  split; [exact (reach_Bars _ _ _ _ _ Hreach)|].
  unfold a, p', h', AddBar. simpl.
  split; [reflexivity|].
  split; [apply lookup_ge_None; lia|].
  split.
  - eexists. split; [apply list_lookup_middle; reflexivity|]. simpl. auto.
  - split; [|auto]. intros b x Hb. apply lookup_app_l_Some. exact Hb.
Qed.

Lemma added_run :
  reach sample_pkg (Bar_String 0) (initial sample_progress [sample_bar])
    added_history added_state.
Proof.
  unfold added_history, added_state, initial.
  eapply reach_cons; [eapply reach_cons; [apply reach_nil|]|].
  - apply step_Start.
  - apply (step_AddBar sample_pkg (Bar_String 0) sample_progress [sample_bar]).
Defined.

Lemma AddBar_appends_witness :
  Bars sample_progress `prefix_of` Bars (sys_progress added_state) /\
  Bars (AddBar sample_pkg 100 (sys_progress added_state)
          (sys_heap added_state)).1.2 = [0%nat; 1%nat; 2%nat].
Proof.
  destruct (AddBar_appends sample_pkg (Bar_String 0) sample_progress [sample_bar]
              added_history added_state 100 added_run) as (H0 & H & _).
  split; [exact H0 | exact H].
Defined.

(** * Further properties of the render pass *)

Lemma wrap_range (z : Z) : GoInt.in_range (GoInt.wrap z).
Proof.
  unfold GoInt.in_range, GoInt.wrap, GoInt.max_int, GoInt.min_int,
    GoInt.modulus, GoInt.bits.
  pose proof (Z.mod_pos_bound (z - - 2 ^ (64 - 1)) (2 ^ 64) ltac:(lia)). lia.
Qed.

Lemma barWidth_bounds (W D : Z) : 10 <= barWidth W D <= GoInt.max_int.
Proof.
  unfold barWidth, GoInt.sub.
  pose proof (wrap_range (W - D)) as [_ Hhi].
  destruct (Z.ltb_spec (GoInt.wrap (W - D)) 10); [|lia].
  unfold GoInt.max_int, GoInt.bits. simpl. lia.
Qed.

(** What the loop body does to a bar, in terms of the sum it computed. *)
Lemma print_bar_result render (W : Z) (bar : Bar) :
  (print_bar render W bar).1 =
    (set_Width bar (barWidth W (decoratorsWidth bar)),
     (render (set_Width bar (barWidth W (decoratorsWidth bar)))).1).
Proof.
  unfold print_bar, decoratorsWidth, bind, ret.
  destruct (addWidths Prepend 0 (prependFuncs bar) (view bar) 0) as [w1 l1].
  simpl.
  destruct (addWidths Append 0 (appendFuncs bar) (view bar) w1) as [w2 l2].
  simpl.
  destruct (render (set_Width bar (barWidth W w2))) as [line l3].
  reflexivity.
Qed.

Lemma set_Width_twice (bar : Bar) (w1 w2 : Z) :
  set_Width (set_Width bar w1) w2 = set_Width bar w2.
Proof. reflexivity. Qed.

Section PrintStore.

Variable render : Bar -> Eval string.
Variable W : Z.

(** A turn of the loop on other pointers leaves a bar alone. *)
Lemma print_loop_other (l : list nat) : forall (h : list Bar) w h' w' cs a,
  print_loop render W l h w = Some (h', w', cs) ->
  a ∉ l -> h' !! a = h !! a.
Proof.
  induction l as [|a0 l IH]; intros h w h' w' cs a H Ha; simpl in H.
  - inversion H; subst. reflexivity.
  - destruct (h !! a0) as [bar|]; [|discriminate].
    destruct (print_bar render W bar) as [[bar' line] cs0].
    destruct (print_loop render W l (<[a0:=bar']> h) (writer_call w (Fprintln line)))
      as [[[h1 w1] cs1]|] eqn:E; [|discriminate].
    inversion H; subst. clear H.
    apply not_elem_of_cons in Ha as [Hne Hl].
    rewrite (IH _ _ _ _ _ a E Hl).
    apply list_lookup_insert_ne. congruence.
Qed.

(** The pass changes nothing of a bar but its width. *)
Lemma print_loop_only_widths (l : list nat) : forall (h : list Bar) w h' w' cs,
  print_loop render W l h w = Some (h', w', cs) ->
  forall a bar, h !! a = Some bar -> exists x, h' !! a = Some (set_Width bar x).
Proof.
  induction l as [|a0 l IH]; intros h w h' w' cs H a bar Ha; simpl in H.
  - inversion H; subst. exists (bar_Width (view bar)).
    rewrite Ha. destruct bar as [[t c x] pf af]. reflexivity.
  - destruct (h !! a0) as [bar0|] eqn:E0; [|discriminate].
    pose proof (print_bar_result render W bar0) as Hb.
    destruct (print_bar render W bar0) as [[bar' line] cs0].
    simpl in Hb. inversion Hb; subst bar'. clear Hb.
    destruct (print_loop render W l _ (writer_call w (Fprintln line)))
      as [[[h1 w1] cs1]|] eqn:E; [|discriminate].
    inversion H; subst. clear H.
    destruct (decide (a = a0)) as [->|Hne].
    + assert (bar0 = bar) by congruence. subst bar0.
      destruct (IH _ _ _ _ _ E a0 (set_Width bar (barWidth W (decoratorsWidth bar))))
        as [x Hx].
      * apply list_lookup_insert_eq. eapply lookup_lt_Some. exact Ha.
      * exists x. rewrite Hx. reflexivity.
    + apply (IH _ _ _ _ _ E a bar).
      rewrite list_lookup_insert_ne by congruence. exact Ha.
Qed.

(** A property that every turn of the loop establishes, and keeps, holds
    of every bar of the list when the loop is over. *)
Lemma print_loop_post (R Q : Bar -> Prop) :
  (forall bar, R bar ->
     R (print_bar render W bar).1.1 /\ Q (print_bar render W bar).1.1) ->
  forall (l : list nat) (h : list Bar) w h' w' cs,
    (forall a bar, a ∈ l -> h !! a = Some bar -> R bar) ->
    print_loop render W l h w = Some (h', w', cs) ->
    forall a, a ∈ l -> exists bar', h' !! a = Some bar' /\ R bar' /\ Q bar'.
Proof.
  intros Hstep. induction l as [|a0 l IH]; intros h w h' w' cs HR H a Ha.
  - apply elem_of_nil in Ha. destruct Ha.
  - simpl in H. destruct (h !! a0) as [bar0|] eqn:E0; [|discriminate].
    assert (HR0 : R bar0) by (eapply HR; [left | exact E0]).
    destruct (Hstep bar0 HR0) as [HR1 HQ1].
    destruct (print_bar render W bar0) as [[bar' line] cs0]. simpl in HR1, HQ1.
    destruct (print_loop render W l (<[a0:=bar']> h) (writer_call w (Fprintln line)))
      as [[[h1 w1] cs1]|] eqn:E; [|discriminate].
    inversion H; subst. clear H.
    assert (Hlt : (a0 < length h)%nat) by (eapply lookup_lt_Some; exact E0).
    assert (HR' : forall b bar, b ∈ l -> <[a0:=bar']> h !! b = Some bar -> R bar).
    { intros b bar Hb Hl. destruct (decide (b = a0)) as [->|Hne].
      - rewrite list_lookup_insert_eq in Hl by exact Hlt. congruence.
      - rewrite list_lookup_insert_ne in Hl by congruence.
        eapply HR; [right; exact Hb | exact Hl]. }
    destruct (decide (a ∈ l)) as [Hin|Hnin].
    + exact (IH _ _ _ _ _ HR' E a Hin).
    + apply elem_of_cons in Ha as [->|Hin]; [|contradiction].
      exists bar'. rewrite (print_loop_other _ _ _ _ _ _ _ E Hnin).
      rewrite list_lookup_insert_eq by exact Hlt. auto.
Qed.

(** The pass panics exactly when one of the pointers leads nowhere. *)
Lemma print_loop_None (l : list nat) : forall (h : list Bar) w,
  print_loop render W l h w = None <-> exists a, a ∈ l /\ h !! a = None.
Proof.
  induction l as [|a0 l IH]; intros h w; simpl.
  - split; [discriminate|]. intros (a & Ha & _). apply elem_of_nil in Ha. destruct Ha.
  - destruct (h !! a0) as [bar0|] eqn:E0.
    + destruct (print_bar render W bar0) as [[bar' line] cs0].
      specialize (IH (<[a0:=bar']> h) (writer_call w (Fprintln line))).
      destruct (print_loop render W l (<[a0:=bar']> h) (writer_call w (Fprintln line)))
        as [[[h1 w1] cs1]|].
      * split; [discriminate|]. intros (a & Ha & Hn).
        apply elem_of_cons in Ha as [->|Ha]; [congruence|].
        assert (Hex : exists b, b ∈ l /\ <[a0:=bar']> h !! b = None).
        { exists a. split; [exact Ha|]. apply lookup_ge_None.
          rewrite length_insert. apply lookup_ge_None. exact Hn. }
        apply IH in Hex. discriminate.
      * split; [|reflexivity]. intros _.
        destruct IH as [IH1 _]. destruct (IH1 eq_refl) as (a & Ha & Hn).
        exists a. split; [right; exact Ha|].
        apply lookup_ge_None. apply lookup_ge_None in Hn.
        rewrite length_insert in Hn. exact Hn.
    + split; [|reflexivity]. intros _. exists a0. split; [left | exact E0].
Qed.

(** With no pointer twice in the list, each bar is resized once, from
    what it was when the pass began. *)
Lemma print_loop_NoDup (l : list nat) : forall (h : list Bar) w h' w' cs,
  NoDup l ->
  print_loop render W l h w = Some (h', w', cs) ->
  forall a bar, a ∈ l -> h !! a = Some bar ->
    h' !! a = Some (print_bar render W bar).1.1.
Proof.
  induction l as [|a0 l IH]; intros h w h' w' cs Hnd H a bar Ha Hbar.
  - apply elem_of_nil in Ha. destruct Ha.
  - apply NoDup_cons in Hnd as [Hnin Hnd].
    simpl in H. destruct (h !! a0) as [bar0|] eqn:E0; [|discriminate].
    destruct (print_bar render W bar0) as [[bar' line] cs0] eqn:Eb.
    destruct (print_loop render W l (<[a0:=bar']> h) (writer_call w (Fprintln line)))
      as [[[h1 w1] cs1]|] eqn:E; [|discriminate].
    inversion H; subst. clear H.
    assert (Hlt : (a0 < length h)%nat) by (eapply lookup_lt_Some; exact E0).
    apply elem_of_cons in Ha as [->|Hin].
    + assert (bar0 = bar) by congruence. subst bar0.
      rewrite (print_loop_other _ _ _ _ _ _ _ E Hnin).
      rewrite list_lookup_insert_eq by exact Hlt. rewrite Eb. reflexivity.
    + assert (a <> a0) by (intros ->; contradiction).
      apply (IH _ _ _ _ _ Hnd E a bar Hin).
      rewrite list_lookup_insert_ne by congruence. exact Hbar.
Qed.

(** The pass reads the writer only to add to its calls. *)
Lemma print_loop_writer (l : list nat) : forall (h : list Bar) w1 w2,
  lw_calls w1 = lw_calls w2 ->
  match print_loop render W l h w1, print_loop render W l h w2 with
  | Some (h1, w1', cs1), Some (h2, w2', cs2) =>
      h1 = h2 /\ cs1 = cs2 /\ lw_calls w1' = lw_calls w2' /\
      lw_Out w1' = lw_Out w1 /\ lw_Out w2' = lw_Out w2
  | None, None => True
  | _, _ => False
  end.
Proof.
  induction l as [|a0 l IH]; intros h w1 w2 Hw; simpl.
  - auto.
  - destruct (h !! a0) as [bar0|]; [|exact I].
    destruct (print_bar render W bar0) as [[bar' line] cs0].
    specialize (IH (<[a0:=bar']> h) (writer_call w1 (Fprintln line))
                  (writer_call w2 (Fprintln line))).
    destruct (print_loop render W l (<[a0:=bar']> h) (writer_call w1 (Fprintln line)))
      as [[[h1 x1] cs1]|];
      destruct (print_loop render W l (<[a0:=bar']> h) (writer_call w2 (Fprintln line)))
      as [[[h2 x2] cs2]|];
      try (apply IH; simpl; congruence).
    destruct IH as (-> & -> & Hc & Ho1 & Ho2); [simpl; congruence|].
    simpl in Ho1, Ho2. auto.
Qed.

End PrintStore.

(** X1. A render pass reads nothing of the container but [Bars] and the
    calls already made on its live writer: two containers that agree on
    these, whatever their [Out], [Width] and [RefreshInterval], get the
    same store, the same decorator calls and the same calls on the writer,
    or panic together; each keeps its own [Out], [Width],
    [RefreshInterval] and writer output. *)
Theorem print_reads_Bars_only (render : Bar -> Eval string) (g : Package)
    (q : TermQuery) (p1 p2 : Progress) (h : list Bar) :
  Bars p1 = Bars p2 ->
  lw_calls (lw p1) = lw_calls (lw p2) ->
  match print render g q p1 h, print render g q p2 h with
  | Some (p1', h1, cs1), Some (p2', h2, cs2) =>
      h1 = h2 /\ cs1 = cs2 /\ lw_calls (lw p1') = lw_calls (lw p2') /\
      (Out p1' = Out p1 /\ Width p1' = Width p1 /\
       RefreshInterval p1' = RefreshInterval p1 /\ lw_Out (lw p1') = lw_Out (lw p1)) /\
      (Out p2' = Out p2 /\ Width p2' = Width p2 /\
       RefreshInterval p2' = RefreshInterval p2 /\ lw_Out (lw p2') = lw_Out (lw p2))
  | None, None => True
  | _, _ => False
  end.
Proof.
  intros HB Hc. unfold print. rewrite HB.
  pose proof (print_loop_writer render (getTerminalWidth g q) (Bars p2) h
                (lw p1) (lw p2) Hc) as H.
  destruct (print_loop render (getTerminalWidth g q) (Bars p2) h (lw p1))
    as [[[h1 w1] cs1]|];
    destruct (print_loop render (getTerminalWidth g q) (Bars p2) h (lw p2))
    as [[[h2 w2] cs2]|]; try exact H.
  destruct H as (-> & -> & Hcalls & Ho1 & Ho2). simpl.
  rewrite Hcalls. auto 10.
Qed.

Lemma print_reads_Bars_only_witness :
  match print (Bar_String 0) sample_pkg (terminal 30) sample_progress [sample_bar],
        print (Bar_String 0) sample_pkg (terminal 30) reconfigured_progress [sample_bar]
  with
  | Some (p1', h1, cs1), Some (p2', h2, cs2) =>
      h1 = h2 /\ cs1 = cs2 /\ lw_calls (lw p1') = lw_calls (lw p2')
  | _, _ => False
  end.
Proof.
  pose proof (print_reads_Bars_only (Bar_String 0) sample_pkg (terminal 30)
                sample_progress reconfigured_progress [sample_bar]
                eq_refl eq_refl) as H.
  vm_compute in H. vm_compute.
  destruct H as (H1 & H2 & H3 & _). auto.
Defined.

(** X2. A render pass changes nothing of the store but the widths of
    bars: every bar keeps its total, its progress and its decorators, the
    bars the container does not point to keep their width too, and no bar
    is added or removed. *)
Theorem print_changes_only_widths (render : Bar -> Eval string) (g : Package)
    (q : TermQuery) (p : Progress) (h : list Bar) p' h' cs :
  print render g q p h = Some (p', h', cs) ->
  (forall a bar, h !! a = Some bar -> exists x, h' !! a = Some (set_Width bar x)) /\
  (forall a, a ∉ Bars p -> h' !! a = h !! a) /\
  length h' = length h.
Proof.
  unfold print. intros H.
  destruct (print_loop render (getTerminalWidth g q) (Bars p) h (lw p))
    as [[[h1 w1] cs1]|] eqn:E; [|discriminate].
  inversion H; subst. clear H.
  split; [exact (print_loop_only_widths render _ _ _ _ _ _ _ E)|].
  split; [intros a Ha; exact (print_loop_other render _ _ _ _ _ _ _ _ E Ha)|].
  exact (print_loop_length render _ _ _ _ _ _ _ E).
Qed.

Lemma print_changes_only_widths_witness :
  exists p' h' cs,
    print (Bar_String 0) sample_pkg (terminal 30) sample_progress
      [sample_bar; sample_bar] = Some (p', h', cs) /\
    h' !! 0%nat = Some (set_Width sample_bar 23) /\
    h' !! 1%nat = Some sample_bar /\
    length h' = 2%nat.
Proof.
  eexists _, _, _. split; [vm_compute; reflexivity|].
  destruct (print_changes_only_widths (Bar_String 0) sample_pkg (terminal 30)
              sample_progress [sample_bar; sample_bar] _ _ _ eq_refl)
    as (_ & Hother & Hlen).
  split; [reflexivity|]. split; [|exact Hlen].
  apply (Hother 1%nat). intros Hin. simpl in Hin.
  apply list_elem_of_singleton in Hin. discriminate.
Defined.

(** X3. After a render pass every bar of the container is at least 10
    columns wide and its width is a value of an [int], whatever the
    terminal, the decorators and the wrap-around of the subtraction. *)
Theorem print_min_width (render : Bar -> Eval string) (g : Package)
    (q : TermQuery) (p : Progress) (h : list Bar) p' h' cs :
  print render g q p h = Some (p', h', cs) ->
  forall a, a ∈ Bars p ->
    exists bar', h' !! a = Some bar' /\
      10 <= bar_Width (view bar') <= GoInt.max_int.
Proof.
  unfold print. intros H a Ha.
  destruct (print_loop render (getTerminalWidth g q) (Bars p) h (lw p))
    as [[[h1 w1] cs1]|] eqn:E; [|discriminate].
  inversion H; subst. clear H.
  destruct (print_loop_post render (getTerminalWidth g q) (fun _ => True)
              (fun b => 10 <= bar_Width (view b) <= GoInt.max_int))
    with (l := Bars p) (h := h) (w := lw p) (h' := h') (w' := w1) (cs := cs)
         (a := a) as (bar' & Hl & _ & HQ); auto.
  - intros bar _. split; [exact I|].
    pose proof (print_bar_result render (getTerminalWidth g q) bar) as Hb.
    destruct (print_bar render (getTerminalWidth g q) bar) as [[b l] c].
    simpl in *. inversion Hb; subst. simpl. apply barWidth_bounds.
  - eauto.
Qed.

Lemma print_min_width_witness :
  exists p' h' cs bar',
    print (Bar_String 0) sample_pkg (terminal 3) sample_progress [sample_bar]
      = Some (p', h', cs) /\
    h' !! 0%nat = Some bar' /\ 10 <= bar_Width (view bar') <= GoInt.max_int.
Proof.
  eexists _, _, _.
  destruct (print_min_width (Bar_String 0) sample_pkg (terminal 3) sample_progress
              [sample_bar] _ _ _ eq_refl 0%nat) as (bar' & H1 & H2).
  - simpl. left.
  - exists bar'. split; [vm_compute; reflexivity|]. split; [exact H1 | exact H2].
Defined.

(** X4. A render pass panics exactly when one of the pointers of [Bars]
    leads to no bar; otherwise it returns. *)
Theorem print_panics_iff (render : Bar -> Eval string) (g : Package)
    (q : TermQuery) (p : Progress) (h : list Bar) :
  print render g q p h = None <-> exists a, a ∈ Bars p /\ h !! a = None.
Proof.
  rewrite <- (print_loop_None render (getTerminalWidth g q) (Bars p) h (lw p)).
  unfold print.
  destruct (print_loop render (getTerminalWidth g q) (Bars p) h (lw p))
    as [[[h1 w1] cs1]|]; split; intros H; try reflexivity; discriminate.
Qed.

(** X5. When no bar is twice in [Bars], a render pass leaves each bar of
    the container with the width [max 10 (W - D)], [W] being the terminal
    width of the tick and [D] the width of the decorator strings of the bar
    as it was when the pass began, provided [D] and [W - D] fit an [int];
    the rest of the bar is as it was. *)
Theorem print_tick_widths (render : Bar -> Eval string) (g : Package)
    (q : TermQuery) (p : Progress) (h : list Bar) p' h' cs (a : nat) (bar : Bar) :
  let W := getTerminalWidth g q in
  let D := sumWidths (decoratorStrings bar) in
  NoDup (Bars p) ->
  print render g q p h = Some (p', h', cs) ->
  a ∈ Bars p ->
  h !! a = Some bar ->
  D <= GoInt.max_int ->
  GoInt.in_range (W - D) ->
  exists bar',
    h' !! a = Some bar' /\
    bar_Width (view bar') = Z.max 10 (W - D) /\
    bar_Total (view bar') = bar_Total (view bar) /\
    bar_current (view bar') = bar_current (view bar) /\
    prependFuncs bar' = prependFuncs bar /\
    appendFuncs bar' = appendFuncs bar.
Proof.
  intros W D Hnd H Ha Hbar HD HW. unfold print in H. fold W in H.
  destruct (print_loop render W (Bars p) h (lw p))
    as [[[h1 w1] cs1]|] eqn:E; [|discriminate].
  inversion H; subst. clear H.
  rewrite (print_loop_NoDup render W _ _ _ _ _ _ Hnd E a bar Ha Hbar).
  destruct (print_bar_fields render W bar HD HW) as (bar' & Hb & Hfields).
  destruct (print_bar render W bar) as [[b l] c]. simpl in *.
  inversion Hb; subst. exists bar'. split; [reflexivity | exact Hfields].
Qed.

Lemma print_tick_widths_witness :
  exists p' h' cs bar',
    print (Bar_String 0) sample_pkg (terminal 80) sample_progress [sample_bar]
      = Some (p', h', cs) /\
    h' !! 0%nat = Some bar' /\ bar_Width (view bar') = 73.
Proof.
  destruct (print (Bar_String 0) sample_pkg (terminal 80) sample_progress
              [sample_bar]) as [[[p' h'] cs]|] eqn:E.
  - destruct (print_tick_widths (Bar_String 0) sample_pkg (terminal 80)
                sample_progress [sample_bar] p' h' cs 0%nat sample_bar)
      as (bar' & Hl & Hw & _).
    + simpl. apply NoDup_singleton.
    + exact E.
    + simpl. left.
    + reflexivity.
    + range.
    + range.
    + exists p', h', cs, bar'. auto.
  - vm_compute in E. discriminate.
Defined.

(** X6. As long as the subtraction does not wrap around: when the
    decorators leave at least 10 columns, the bar and the decorators take
    exactly the width of the terminal; when they leave fewer, the bar is 10
    columns wide and bar and decorators together are wider than the
    terminal. *)
Theorem barWidth_fits_or_overflows (W D : Z) :
  GoInt.in_range (W - D) ->
  (10 <= W - D -> barWidth W D + D = W) /\
  (W - D < 10 -> barWidth W D = 10 /\ W < barWidth W D + D).
Proof.
  intros H. rewrite (barWidth_max W D H). lia.
Qed.

Lemma barWidth_fits_or_overflows_witness :
  barWidth 80 7 + 7 = 80 /\ barWidth 12 7 = 10 /\ 12 < barWidth 12 7 + 7.
Proof.
  destruct (barWidth_fits_or_overflows 80 7) as [H1 _]; [range|].
  destruct (barWidth_fits_or_overflows 12 7) as [_ H2]; [range|].
  split; [apply H1; lia | apply H2; lia].
Defined.

(** ** Two passes in a row *)

Lemma addWidths_ext mk (fs : list DecoratorFunc) : forall i b1 b2 acc,
  (forall f, In f fs -> f b1 = f b2) ->
  (addWidths mk i fs b1 acc).1 = (addWidths mk i fs b2 acc).1.
Proof.
  induction fs as [|f fs IH]; intros i b1 b2 acc Hext; simpl; [reflexivity|].
  unfold bind, call.
  rewrite (Hext f (or_introl eq_refl)).
  specialize (IH (Datatypes.S i) b1 b2
                (GoInt.add acc (GoInt.add (len (f b2)) 1))
                (fun f' Hf => Hext f' (or_intror Hf))).
  destruct (addWidths mk (Datatypes.S i) fs b1 _) as [v1 l1].
  destruct (addWidths mk (Datatypes.S i) fs b2 _) as [v2 l2].
  simpl in *. exact IH.
Qed.

Lemma decoratorsWidth_blind (bar : Bar) (x : Z) :
  width_blind bar ->
  decoratorsWidth (set_Width bar x) = decoratorsWidth bar.
Proof.
  intros Hb. unfold decoratorsWidth. simpl.
  rewrite (addWidths_ext Prepend (prependFuncs bar) 0%nat _ (view bar) 0).
  - apply addWidths_ext. intros f Hf. apply (Hb f).
    apply in_or_app. right. exact Hf.
  - intros f Hf. apply (Hb f). apply in_or_app. left. exact Hf.
Qed.

Lemma print_bar_fixed render (W : Z) (bar : Bar) :
  width_blind bar ->
  width_blind (print_bar render W bar).1.1 /\
  (print_bar render W (print_bar render W bar).1.1).1.1 = (print_bar render W bar).1.1.
Proof.
  intros Hb.
  rewrite (print_bar_result render W bar). simpl.
  split; [exact Hb|].
  rewrite (print_bar_result render W (set_Width bar (barWidth W (decoratorsWidth bar)))).
  simpl. rewrite (decoratorsWidth_blind bar _ Hb). reflexivity.
Qed.

(** A pass over bars on which the loop body has no effect leaves the
    store as it is. *)
Lemma print_loop_fixed render (W : Z) (l : list nat) : forall (h : list Bar) w,
  (forall a, a ∈ l ->
     exists bar, h !! a = Some bar /\ (print_bar render W bar).1.1 = bar) ->
  exists w' cs, print_loop render W l h w = Some (h, w', cs).
Proof.
  induction l as [|a0 l IH]; intros h w Hfix; simpl.
  - eauto.
  - destruct (Hfix a0) as (bar & Ha & Hb); [left|]. rewrite Ha.
    destruct (print_bar render W bar) as [[bar' line] cs0]. simpl in Hb. subst bar'.
    rewrite (list_insert_id _ _ _ Ha).
    destruct (IH h (writer_call w (Fprintln line))) as (w' & cs & E).
    + intros a Hin. apply Hfix. right. exact Hin.
    + rewrite E. eauto.
Qed.

(** X7. When no decorator of the container's bars looks at the width of
    its bar, a second render pass on the same terminal finds nothing to
    change: it returns, and leaves the store as the first pass left it. *)
Theorem print_idempotent (render : Bar -> Eval string) (g : Package)
    (q : TermQuery) (p : Progress) (h : list Bar) p1 h1 cs1 :
  (forall a bar, a ∈ Bars p -> h !! a = Some bar -> width_blind bar) ->
  print render g q p h = Some (p1, h1, cs1) ->
  exists p2 cs2, print render g q p1 h1 = Some (p2, h1, cs2).
Proof.
  intros Hblind H. unfold print in *.
  destruct (print_loop render (getTerminalWidth g q) (Bars p) h (lw p))
    as [[[h' w'] cs']|] eqn:E; [|discriminate].
  inversion H; subst. clear H. simpl.
  pose proof (print_loop_post render (getTerminalWidth g q) width_blind
                (fun b => (print_bar render (getTerminalWidth g q) b).1.1 = b)
                (print_bar_fixed render (getTerminalWidth g q))
                (Bars p) h (lw p) h1 w' cs1 Hblind E) as Hpost.
  destruct (print_loop_fixed render (getTerminalWidth g q) (Bars p) h1
              (writer_call w' Flush)) as (w2 & cs2 & E2).
  - intros a Ha. destruct (Hpost a Ha) as (bar' & Hl & _ & Hq). eauto.
  - rewrite E2. eauto.
Qed.

Lemma print_idempotent_witness :
  exists p1 h1 cs1 p2 cs2,
    print (Bar_String 0) sample_pkg (terminal 30) sample_progress [sample_bar]
      = Some (p1, h1, cs1) /\
    print (Bar_String 0) sample_pkg (terminal 30) p1 h1 = Some (p2, h1, cs2).
Proof.
  assert (Hblind : forall a bar, a ∈ Bars sample_progress ->
            [sample_bar] !! a = Some bar -> width_blind bar).
  { intros a bar Ha Hl f Hf v w.
    apply list_elem_of_singleton in Ha. subst a.
    inversion Hl; subst bar. simpl in Hf.
    destruct Hf as [<-|[<-|[]]]; reflexivity. }
  destruct (print (Bar_String 0) sample_pkg (terminal 30) sample_progress
              [sample_bar]) as [[[p1 h1] cs1]|] eqn:E.
  - destruct (print_idempotent (Bar_String 0) sample_pkg (terminal 30)
                sample_progress [sample_bar] p1 h1 cs1 Hblind E) as (p2 & cs2 & H2).
    exists p1, h1, cs1, p2, cs2. split; [reflexivity | exact H2].
  - vm_compute in E. discriminate.
Defined.

(** * Further properties of the loop and its callers *)

Lemma well_formed_print render g q p h p' h' cs :
  print render g q p h = Some (p', h', cs) ->
  well_formed p h -> well_formed p' h'.
Proof.
  intros H [Hv Hn]. apply print_fields in H.
  destruct H as (HB & _ & _ & _ & Hlen).
  unfold well_formed. rewrite HB, Hlen. auto.
Qed.

Lemma well_formed_AddBar g total p (h : list Bar) :
  well_formed p h ->
  well_formed (AddBar g total p h).1.2 (AddBar g total p h).2.
Proof.
  intros [Hv Hn]. unfold well_formed, AddBar. simpl. split.
  - apply Forall_app. split.
    + eapply Forall_impl; [exact Hv|]. intros a Ha. simpl in *.
      rewrite length_app. simpl. lia.
    + constructor; [|constructor]. rewrite length_app. simpl. lia.
  - apply NoDup_app. split; [exact Hn|]. split; [|apply NoDup_singleton].
    intros a Ha Hin. apply list_elem_of_singleton in Hin. subst a.
    rewrite Forall_forall in Hv. specialize (Hv _ Ha). lia.
Qed.

Lemma well_formed_step g render s e s' :
  step g render s e s' ->
  well_formed (sys_progress s) (sys_heap s) ->
  well_formed (sys_progress s') (sys_heap s').
Proof.
  destruct 1; simpl; auto.
  - eapply well_formed_print; eassumption.
  - eapply well_formed_print; eassumption.
  - apply well_formed_AddBar.
Qed.

(** X8. In every run of a container that began well formed (every
    pointer of [Bars] leading to a bar, none twice), and so of every
    container made by [New], the container stays well formed, whatever
    [AddBar], the setters and the loop do; hence no render pass of the run
    can panic. *)
Theorem run_well_formed (g : Package) (render : Bar -> Eval string)
    (p : Progress) (h : list Bar) (hist : list Event) (s : System) :
  reach g render (initial p h) hist s ->
  well_formed p h ->
  well_formed (sys_progress s) (sys_heap s) /\
  forall q, exists p' h' cs,
    print render g q (sys_progress s) (sys_heap s) = Some (p', h', cs).
Proof.
  intros Hreach Hwf.
  assert (Hs : well_formed (sys_progress s) (sys_heap s)).
  { induction Hreach as [|hist s e s' _ IH Hstep]; [exact Hwf|].
    eapply well_formed_step; [exact Hstep | exact IH]. }
  split; [exact Hs|]. intros q. apply print_total.
  destruct Hs as [Hv _]. eapply Forall_impl; [exact Hv|].
  intros a Ha. apply lookup_lt_is_Some. exact Ha.
Qed.

Lemma run_well_formed_witness :
  well_formed (sys_progress added_state) (sys_heap added_state) /\
  exists p' h' cs,
    print (Bar_String 0) sample_pkg no_terminal (sys_progress added_state)
      (sys_heap added_state) = Some (p', h', cs).
Proof.
  destruct (run_well_formed sample_pkg (Bar_String 0) sample_progress [sample_bar]
              added_history added_state added_run) as [H1 H2].
  - split; [repeat constructor | apply NoDup_singleton].
  - split; [exact H1 | exact (H2 no_terminal)].
Defined.

Lemma flushes_app (l1 l2 : list WriterCall) :
  flushes (l1 ++ l2) = (flushes l1 + flushes l2)%nat.
Proof.
  induction l1 as [|c l1 IH]; [reflexivity|].
  destruct c; simpl; rewrite IH; reflexivity.
Qed.

Lemma flushes_lines (lines : list string) : flushes (map Fprintln lines) = 0%nat.
Proof. induction lines as [|x lines IH]; [reflexivity | exact IH]. Qed.

(** X10. The loop paints once for each time it wakes up, be it by its
    timer or by the signal of [Stop], and never otherwise: in every run
    the number of wake-ups is the number of render passes, plus one while
    the loop has woken up and not painted yet. *)
Theorem prints_follow_wakes (g : Package) (render : Bar -> Eval string)
    (p : Progress) (h : list Bar) (hist : list Event) (s : System) :
  reach g render (initial p h) hist s ->
  count_events is_wake hist = (count_events is_print hist + pending s)%nat.
Proof.
  induction 1 as [|hist s e s' _ IH Hstep]; [reflexivity|].
  destruct Hstep; unfold pending in *; simpl in *;
    repeat match goal with
           | x : LoopPc |- _ => destruct x
           end; simpl in *; lia.
Qed.

Lemma prints_follow_wakes_witness :
  count_events is_wake retimed_history
    = (count_events is_print retimed_history + pending retimed_state)%nat /\
  count_events is_wake retimed_history = 2%nat /\
  count_events is_print retimed_history = 1%nat.
Proof.
  split; [|split; reflexivity].
  exact (prints_follow_wakes sample_pkg (Bar_String 0) empty_progress []
           retimed_history retimed_state retimed_run).
Defined.

(** X11. What is handed to the live writer only grows, and grows by
    render passes alone: in every run the calls made on the writer at the
    start are a prefix of the calls made so far, and the number of
    flushes is the number at the start plus the number of render passes of
    the run. *)
Theorem writer_grows_by_frames (g : Package) (render : Bar -> Eval string)
    (p : Progress) (h : list Bar) (hist : list Event) (s : System) :
  reach g render (initial p h) hist s ->
  lw_calls (lw p) `prefix_of` lw_calls (lw (sys_progress s)) /\
  flushes (lw_calls (lw (sys_progress s)))
    = (flushes (lw_calls (lw p)) + count_events is_print hist)%nat.
Proof.
  induction 1 as [|hist s e s' _ [IHp IHf] Hstep].
  - simpl. split; [reflexivity | lia].
  - destruct Hstep; simpl in *; try (split; [exact IHp | lia]).
    + match goal with Hp : print _ _ _ _ _ = Some _ |- _ =>
        destruct (print_calls _ _ _ _ _ _ _ _ Hp) as (lines & Hc & _) end.
      rewrite Hc. split.
      * etransitivity; [exact IHp | apply prefix_app_r; reflexivity].
      * rewrite !flushes_app, flushes_lines. simpl. lia.
    + match goal with Hp : print _ _ _ _ _ = Some _ |- _ =>
        destruct (print_calls _ _ _ _ _ _ _ _ Hp) as (lines & Hc & _) end.
      rewrite Hc. split.
      * etransitivity; [exact IHp | apply prefix_app_r; reflexivity].
      * rewrite !flushes_app, flushes_lines. simpl. lia.
Qed.

Lemma writer_grows_by_frames_witness :
  flushes (lw_calls (lw (sys_progress stopped_state))) = 1%nat.
Proof.
  destruct (writer_grows_by_frames sample_pkg (Bar_String 0) empty_progress []
              stopped_history stopped_state stopped_run) as [_ H].
  exact H.
Defined.

(** X12. Once [Listen] has returned it stays returned, and from then on
    nothing is painted and no call is made on the live writer, whatever
    the callers do to the container. *)
Theorem Listen_returned_is_silent (g : Package) (render : Bar -> Eval string)
    (s : System) (hist : list Event) (s' : System) :
  reach g render s hist s' ->
  sys_loop s = LDone ->
  sys_loop s' = LDone /\ ~ In EvPrint hist /\
  lw_calls (lw (sys_progress s')) = lw_calls (lw (sys_progress s)).
Proof.
  induction 1 as [|hist s1 e s2 _ IH Hstep]; intros Hdone.
  - auto.
  - destruct (IH Hdone) as (Hl & Hq & Hc).
    destruct Hstep; simpl in *; try discriminate;
      repeat split; auto;
      try (apply not_in_cons_event; [discriminate | assumption]).
Qed.

Lemma Listen_returned_is_silent_witness :
  exists s',
    reach sample_pkg (Bar_String 0) stopped_state [EvAddBar 3; EvSetOut 9%nat] s' /\
    sys_loop s' = LDone /\
    lw_calls (lw (sys_progress s')) = [Flush].
Proof.
  eexists. split.
  - eapply reach_cons; [eapply reach_cons; [apply reach_nil|]|].
    + apply step_SetOut.
    + apply step_AddBar.
  - destruct (Listen_returned_is_silent sample_pkg (Bar_String 0) stopped_state
                [EvAddBar 3; EvSetOut 9%nat] _
                (reach_cons _ _ _ _ _ _ _
                   (reach_cons _ _ _ _ _ _ _ (reach_nil _ _ _)
                      (step_SetOut _ _ _ _ _ _ _ 9%nat))
                   (step_AddBar _ _ _ _ _ _ _ 3)) eq_refl) as (H1 & _ & H3).
    split; [exact H1 | exact H3].
Defined.
